(** * SheetObjectTemplate: valid sequence tracks, static values, defaults

    A shallow embedding of [src/sheetObjects/SheetObjectTemplate.ts] and of
    the JavaScript built-ins and helpers it calls, followed by the
    properties of the derivations it exposes.

    Layout:
    - [Js]: JSON values, [JSON.stringify], [JSON.parse], truthiness;
    - [Logger]: the writer monad that stands for [logger.warn];
    - [PropTypes]: the schema tree and the helpers that walk it;
    - [Lodash]: [set] on nested maps, and [getDeep];
    - [JsArray]: [Array.prototype.sort];
    - [Template]: the class [SheetObjectTemplate] and its methods;
    - lemmas on the parser, the ordering, the sort and the tree;
    - [Sample]: the schemas and track maps of the examples;
    - the properties of the derivations. *)

From Stdlib Require Import ZArith Ascii String List Decimal DecimalString
  DecimalNat DecimalN DecimalPos DecimalZ Sorting.Permutation Sorting.Sorted
  Lia Bool.
From stdpp Require Import base option list gmap strings sorting.

Local Open Scope string_scope.
Local Open Scope Z_scope.

(* ===================================================================== *)
(** * JavaScript values and the JSON built-ins                            *)
(* ===================================================================== *)

Module Js.

#[local] Set Warnings "-register-all".

(** A JavaScript value as JSON text can denote it. Strings are sequences of
    code units; this development covers the code units below 256 (one
    [ascii] each). A number literal without fraction and exponent is the
    integer it writes, [JNum]; a literal with a fraction or an exponent
    denotes a binary64 value, which is not modelled: it is kept by its
    lexeme, [JFloat]. Arrays and objects are modelled by their own
    properties, an object as its entries in creation order. *)
Inductive JSON : Type :=
| JNull
| JBool (b : bool)
| JNum (n : Z)
| JFloat (lexeme : string)
| JStr (s : string)
| JArr (elems : list JSON)
| JObj (members : list (string * JSON)).

(** [undefined] is a missing value: [option JSON] with [None]. *)
Definition JSValue := option JSON.

(** ** Characters *)

(** The quotation mark, code unit 34. *)
Definition dquote : ascii := "034".

Definition is_ws (c : ascii) : bool :=
  match c with
  | " "%char | "009"%char | "010"%char | "013"%char => true
  | _ => false
  end.

Definition is_digit (c : ascii) : bool :=
  match c with
  | "0"%char | "1"%char | "2"%char | "3"%char | "4"%char
  | "5"%char | "6"%char | "7"%char | "8"%char | "9"%char => true
  | _ => false
  end.

Definition is_control (c : ascii) : bool := (N_of_ascii c <? 32)%N.

Definition hex_digit (n : N) : ascii :=
  match n with
  | 0 => "0" | 1 => "1" | 2 => "2" | 3 => "3" | 4 => "4" | 5 => "5"
  | 6 => "6" | 7 => "7" | 8 => "8" | 9 => "9" | 10 => "a" | 11 => "b"
  | 12 => "c" | 13 => "d" | 14 => "e" | _ => "f"
  end%N%char.

(** The value of a hexadecimal digit, in either case. *)
Definition hex_value (c : ascii) : option N :=
  let code := N_of_ascii c in
  (if (48 <=? code) && (code <=? 57) then Some (code - 48)
   else if (97 <=? code) && (code <=? 102) then Some (code - 87)
   else if (65 <=? code) && (code <=? 70) then Some (code - 55)
   else None)%N.

(** ** JSON.stringify *)

(** QuoteJSONString, one code unit: the two-character escapes, [\u00xx]
    for the other control characters, the code unit itself otherwise. *)
Definition escape_char (c : ascii) : string :=
  match c with
  | "034"%char => String "\" (String dquote "")
  | "\"%char => "\\"
  | "008"%char => "\b"
  | "009"%char => "\t"
  | "010"%char => "\n"
  | "012"%char => "\f"
  | "013"%char => "\r"
  | _ =>
      if is_control c
      then "\u00" ++ String (hex_digit (N_of_ascii c / 16))
                       (String (hex_digit (N_of_ascii c mod 16)) "")
      else String c ""
  end.

Fixpoint quote_body (s : string) : string :=
  match s with
  | "" => ""
  | String c s' => escape_char c ++ quote_body s'
  end.

Definition QuoteJSONString (s : string) : string :=
  String dquote (quote_body s ++ String dquote "").

(** Number::toString of an integer: its decimal digits, with a sign when
    negative. *)
Definition string_of_Z (n : Z) : string :=
  NilEmpty.string_of_int (Z.to_int n).

Definition join_comma (parts : list string) : string :=
  String.concat "," parts.

(** The source calls [JSON.stringify] on paths and on one string. For a
    number kept by its lexeme the lexeme stands here; the digits that
    JavaScript prints for a binary64 value are not modelled. *)
Fixpoint JSON_stringify (v : JSON) : string :=
  match v with
  | JNull => "null"
  | JBool true => "true"
  | JBool false => "false"
  | JNum n => string_of_Z n
  | JFloat lexeme => lexeme
  | JStr s => QuoteJSONString s
  | JArr elems => "[" ++ join_comma (map JSON_stringify elems) ++ "]"
  | JObj members =>
      "{" ++ join_comma
               (map (fun kv => QuoteJSONString (fst kv) ++ ":" ++
                               JSON_stringify (snd kv)) members) ++ "}"
  end.

(** ** JSON.parse *)

(** The outcome of a parsing function: a value and the text that follows
    it, a syntax error (JSON.parse throws SyntaxError), or the recursion
    budget of [parse_value] exhausted ([JSON_parse_fuel] shows that the
    budget [JSON_parse] gives is never exhausted). *)
Inductive parsed (A : Type) : Type :=
| Parsed (a : A) (rest : string)
| SyntaxError
| OutOfFuel.
Arguments Parsed {A} a rest.
Arguments SyntaxError {A}.
Arguments OutOfFuel {A}.

Fixpoint skip_ws (s : string) : string :=
  match s with
  | String c s' => if is_ws c then skip_ws s' else s
  | "" => ""
  end.

Definition push_char (c : ascii) (r : option (string * string))
  : option (string * string) :=
  match r with
  | Some (s, rest) => Some (String c s, rest)
  | None => None
  end.

(** The code unit that [\uXXXX] writes; [None] when a digit is not
    hexadecimal or the code unit is not below 256. *)
Definition code_unit (h1 h2 h3 h4 : ascii) : option ascii :=
  match hex_value h1, hex_value h2, hex_value h3, hex_value h4 with
  | Some a, Some b, Some c, Some d =>
      let v := (((a * 16 + b) * 16 + c) * 16 + d)%N in
      if (v <? 256)%N then Some (ascii_of_N v) else None
  | _, _, _, _ => None
  end.

(** The code unit that a two-character escape writes. *)
Definition unescape (e : ascii) : option ascii :=
  match e with
  | "034" => Some dquote
  | "\" => Some "\"
  | "/" => Some "/"
  | "b" => Some "008"
  | "f" => Some "012"
  | "n" => Some "010"
  | "r" => Some "013"
  | "t" => Some "009"
  | _ => None
  end%char.

(** The characters of a string literal, from after its opening quotation
    mark to its closing one. *)
Fixpoint parse_chars (s : string) : option (string * string) :=
  match s with
  | "" => None
  | String c rest =>
      if (c =? dquote)%char then Some ("", rest)
      else if (c =? "\")%char then
        match rest with
        | String e rest1 =>
            if (e =? "u")%char then
              match rest1 with
              | String h1 (String h2 (String h3 (String h4 rest2))) =>
                  match code_unit h1 h2 h3 h4 with
                  | Some c' => push_char c' (parse_chars rest2)
                  | None => None
                  end
              | _ => None
              end
            else
              match unescape e with
              | Some c' => push_char c' (parse_chars rest1)
              | None => None
              end
        | "" => None
        end
      else if is_control c then None
      else push_char c (parse_chars rest)
  end.

Definition digit_of (c : ascii) : option (uint -> uint) :=
  match c with
  | "0" => Some D0 | "1" => Some D1 | "2" => Some D2 | "3" => Some D3
  | "4" => Some D4 | "5" => Some D5 | "6" => Some D6 | "7" => Some D7
  | "8" => Some D8 | "9" => Some D9 | _ => None
  end%char.

(** The longest prefix of digits, most significant first. *)
Fixpoint parse_digits (s : string) : uint * string :=
  match s with
  | "" => (Nil, "")
  | String c rest =>
      match digit_of c with
      | Some d => let (u, r) := parse_digits rest in (d u, r)
      | None => (Nil, s)
      end
  end.

(** The integer part of a number: one digit 0, or digits that do not
    start with 0. *)
Definition valid_int (d : uint) : bool :=
  match d with
  | Nil => false
  | D0 Nil => true
  | D0 _ => false
  | _ => true
  end.

Definition parse_fraction (s : string) : option (string * string) :=
  match s with
  | String c r =>
      if (c =? ".")%char then
        match parse_digits r with
        | (Nil, _) => None
        | (d, r') => Some ("." ++ NilEmpty.string_of_uint d, r')
        end
      else Some ("", s)
  | "" => Some ("", s)
  end.

Definition parse_sign (s : string) : string * string :=
  match s with
  | String c r =>
      if (c =? "+")%char || (c =? "-")%char then (String c "", r) else ("", s)
  | "" => ("", s)
  end.

Definition parse_exponent (s : string) : option (string * string) :=
  match s with
  | String c r =>
      if (c =? "e")%char || (c =? "E")%char then
        let (sign, r1) := parse_sign r in
        match parse_digits r1 with
        | (Nil, _) => None
        | (d, r') => Some (String c (sign ++ NilEmpty.string_of_uint d), r')
        end
      else Some ("", s)
  | "" => Some ("", s)
  end.

Definition parse_number (s : string) : option (JSON * string) :=
  let (neg, s1) :=
    match s with
    | String c r => if (c =? "-")%char then (true, r) else (false, s)
    | "" => (false, s)
    end in
  let (int, s2) := parse_digits s1 in
  if valid_int int then
    match parse_fraction s2 with
    | Some (frac, s3) =>
        match parse_exponent s3 with
        | Some (exp, s4) =>
            match frac, exp with
            | "", "" =>
                Some (JNum (if neg : bool then - Z.of_uint int
                            else Z.of_uint int), s4)
            | _, _ =>
                Some (JFloat ((if neg : bool then "-" else "") ++
                              NilEmpty.string_of_uint int ++ frac ++ exp), s4)
            end
        | None => None
        end
    | None => None
    end
  else None.

(** Defining a property of an object under construction: the value of an
    existing key is replaced in place, a new key goes last. *)
Fixpoint obj_set {A} (members : list (string * A)) (k : string) (v : A)
  : list (string * A) :=
  match members with
  | [] => [(k, v)]
  | (k', v') :: ms =>
      if String.eqb k' k then (k', v) :: ms else (k', v') :: obj_set ms k v
  end.

(** [s] without its prefix [word]; [None] when [word] is no prefix. *)
Fixpoint strip_prefix (word s : string) : option string :=
  match word, s with
  | "", _ => Some s
  | String a word', String b s' =>
      if (a =? b)%char then strip_prefix word' s' else None
  | String _ _, "" => None
  end.

Definition expect (word : string) (v : JSON) (s : string) : parsed JSON :=
  match strip_prefix word s with
  | Some rest => Parsed v rest
  | None => SyntaxError
  end.

Definition of_option {A} (r : option (A * string)) : parsed A :=
  match r with
  | Some (a, rest) => Parsed a rest
  | None => SyntaxError
  end.

(** A value, preceded by white space. [parse_elements] reads what follows
    the opening bracket of an array that is not empty, or a comma in it:
    a value, then a comma and more, or the closing bracket;
    [parse_members] does so for an object. *)
Fixpoint parse_value (fuel : nat) (s : string) : parsed JSON :=
  match fuel with
  | O => OutOfFuel
  | S fuel =>
      match skip_ws s with
      | String "n"%char _ => expect "null" JNull (skip_ws s)
      | String "t"%char _ => expect "true" (JBool true) (skip_ws s)
      | String "f"%char _ => expect "false" (JBool false) (skip_ws s)
      | String "034"%char r =>
          match parse_chars r with
          | Some (str, r') => Parsed (JStr str) r'
          | None => SyntaxError
          end
      | String "["%char r =>
          match skip_ws r with
          | String "]"%char r' => Parsed (JArr []) r'
          | _ =>
              match parse_elements fuel r with
              | Parsed elems r' => Parsed (JArr elems) r'
              | SyntaxError => SyntaxError
              | OutOfFuel => OutOfFuel
              end
          end
      | String "{"%char r =>
          match skip_ws r with
          | String "}"%char r' => Parsed (JObj []) r'
          | _ =>
              match parse_members fuel r with
              | Parsed members r' =>
                  Parsed (JObj (fold_left
                                  (fun o kv => obj_set o (fst kv) (snd kv))
                                  members [])) r'
              | SyntaxError => SyntaxError
              | OutOfFuel => OutOfFuel
              end
          end
      | s' => of_option (parse_number s')
      end
  end
with parse_elements (fuel : nat) (s : string) : parsed (list JSON) :=
  match fuel with
  | O => OutOfFuel
  | S fuel =>
      match parse_value fuel s with
      | Parsed v r =>
          match skip_ws r with
          | String ","%char r' =>
              match parse_elements fuel r' with
              | Parsed vs r'' => Parsed (v :: vs) r''
              | SyntaxError => SyntaxError
              | OutOfFuel => OutOfFuel
              end
          | String "]"%char r' => Parsed [v] r'
          | _ => SyntaxError
          end
      | SyntaxError => SyntaxError
      | OutOfFuel => OutOfFuel
      end
  end
with parse_members (fuel : nat) (s : string) : parsed (list (string * JSON)) :=
  match fuel with
  | O => OutOfFuel
  | S fuel =>
      match skip_ws s with
      | String "034"%char r =>
          match parse_chars r with
          | Some (k, r1) =>
              match skip_ws r1 with
              | String ":"%char r2 =>
                  match parse_value fuel r2 with
                  | Parsed v r3 =>
                      match skip_ws r3 with
                      | String ","%char r4 =>
                          match parse_members fuel r4 with
                          | Parsed kvs r5 => Parsed ((k, v) :: kvs) r5
                          | SyntaxError => SyntaxError
                          | OutOfFuel => OutOfFuel
                          end
                      | String "}"%char r4 => Parsed [(k, v)] r4
                      | _ => SyntaxError
                      end
                  | SyntaxError => SyntaxError
                  | OutOfFuel => OutOfFuel
                  end
              | _ => SyntaxError
              end
          | None => SyntaxError
          end
      | _ => SyntaxError
      end
  end.

(** [JSON.parse text]: one value with white space around it and nothing
    else; [None] when it throws. Entering an array or an object takes two
    steps of the budget and one character, so twice the length of the
    text is enough. An escape that writes a code unit above 255 is
    outside the strings of this model, and is read as an error. *)
Definition JSON_parse (text : string) : option JSON :=
  match parse_value (S (2 * String.length text)) text with
  | Parsed v rest =>
      match skip_ws rest with
      | "" => Some v
      | _ => None
      end
  | _ => None
  end.

(** ** Truthiness *)

Fixpoint has_nonzero_digit (s : string) : bool :=
  match s with
  | "" => false
  | String c s' =>
      if (c =? "e")%char || (c =? "E")%char then false
      else (is_digit c && negb (c =? "0")%char) || has_nonzero_digit s'
  end.

(** ToBoolean. For [JFloat] the mantissa decides: a literal that only
    rounds to zero counts as not zero here. *)
Definition truthy (v : JSON) : bool :=
  match v with
  | JNull => false
  | JBool b => b
  | JNum n => negb (n =? 0)
  | JFloat lexeme => has_nonzero_digit lexeme
  | JStr s => negb (String.eqb s "")
  | JArr _ | JObj _ => true
  end.

(** [x ?? d] and [x || d] on a value that may be undefined. *)
Definition nullish_or (x : JSValue) (d : JSON) : JSON :=
  match x with
  | None | Some JNull => d
  | Some v => v
  end.

Definition falsy_or (x : JSValue) (d : JSON) : JSON :=
  match x with
  | Some v => if truthy v then v else d
  | None => d
  end.

End Js.

Import Js.

Local Open Scope list_scope.

(** The names of the members of [Object.prototype], which every object
    inherits: reading such a name on an object that has no property of
    that name of its own gives the member. *)
Definition Object_prototype : list string :=
  ["constructor"; "__defineGetter__"; "__defineSetter__"; "hasOwnProperty";
   "__lookupGetter__"; "__lookupSetter__"; "isPrototypeOf";
   "propertyIsEnumerable"; "toString"; "valueOf"; "__proto__";
   "toLocaleString"].

Definition inherited (key : string) : bool :=
  existsb (String.eqb key) Object_prototype.

(* ===================================================================== *)
(** * The logger                                                          *)
(* ===================================================================== *)

Module Logger.

(** A computation that may call [logger.warn]: it takes the messages
    logged so far and returns its result with the messages logged after
    it. *)
Definition Log (A : Type) : Type := list string -> A * list string.

#[export] Instance Log_ret : MRet Log := fun A a log => (a, log).
#[export] Instance Log_bind : MBind Log := fun A B k m log =>
  let (a, log') := m log in k a log'.

Definition warn (message : string) : Log unit :=
  fun log => (tt, log ++ [message]).

(** The result and the messages of a computation started with an empty
    log. *)
Definition run {A} (m : Log A) : A * list string := m [].
Definition result {A} (m : Log A) : A := fst (run m).
Definition warnings {A} (m : Log A) : list string := snd (run m).

End Logger.

Import Logger.

(* ===================================================================== *)
(** * Property paths and the schema                                       *)
(* ===================================================================== *)

Module PropTypes.

#[local] Set Warnings "-register-all".

(** [PathToProp = Array<string | number>]. *)
Inductive PathSegment : Type :=
| PStr (key : string)
| PNum (index : Z).

Definition PathToProp := list PathSegment.

#[export] Instance PathSegment_eq_dec : EqDecision PathSegment.
Proof. solve_decision. Defined.

Definition json_of_segment (seg : PathSegment) : JSON :=
  match seg with
  | PStr key => JStr key
  | PNum index => JNum index
  end.

(** A path as the JavaScript array it is, and back: [asPathToProp] is the
    cast that the declared result type of [parsePathToProp] asserts, and
    is [None] for a value that is not an array of strings and integers. *)
Definition json_of_path (path : PathToProp) : JSON :=
  JArr (map json_of_segment path).

Definition segment_of_json (v : JSON) : option PathSegment :=
  match v with
  | JStr key => Some (PStr key)
  | JNum index => Some (PNum index)
  | _ => None
  end.

Definition asPathToProp (v : JSON) : option PathToProp :=
  match v with
  | JArr elems => mapM segment_of_json elems
  | _ => None
  end.

(** The key of a path in the ordering, [JSON.stringify(pathToProp)]. *)
Definition stringify_path (path : PathToProp) : string :=
  JSON_stringify (json_of_path path).

(** Modelled from the spec: the schema tree [PropTypeConfig], whose
    declaration is not part of the sources. A node is a leaf prop (its
    default value, whether it is sequencable) or a composite with named
    children in declared order; every node has its
    [deserializeAndSanitize] hook. *)
Inductive PropTypeConfig : Type :=
| Leaf (sequencable : bool) (default : JSON)
       (sanitize : JSON -> JSValue)
| Compound (props : list (string * PropTypeConfig))
           (sanitize : JSON -> JSValue).

Definition deserializeAndSanitize (conf : PropTypeConfig) : JSON -> JSValue :=
  match conf with
  | Leaf _ _ sanitize => sanitize
  | Compound _ sanitize => sanitize
  end.

(** The child of a composite under a name. *)
Fixpoint prop_named {A} (name : string) (props : list (string * A))
  : option A :=
  match props with
  | [] => None
  | (k, sub) :: rest =>
      if String.eqb k name then Some sub else prop_named name rest
  end.

(** Modelled from the spec: [getPropConfigByPath] is the spec's
    resolveLeaf. It consumes the segments one composite level at a time,
    and finds nothing when a segment is absent or when the path ends on a
    composite. Children are named by strings, so an integer segment (an
    array index) names no child. *)
Fixpoint getPropConfigByPath (conf : PropTypeConfig) (path : PathToProp)
  : option PropTypeConfig :=
  match path with
  | [] =>
      match conf with
      | Leaf _ _ _ => Some conf
      | Compound _ _ => None
      end
  | PStr key :: rest =>
      match conf with
      | Compound props _ =>
          match prop_named key props with
          | Some sub => getPropConfigByPath sub rest
          | None => None
          end
      | Leaf _ _ _ => None
      end
  | PNum _ :: _ => None
  end.

(** Modelled from the spec: [isPropConfSequencable] is the spec's
    isSequencable, the flag the schema author set on the leaf. *)
Definition isPropConfSequencable (conf : PropTypeConfig) : bool :=
  match conf with
  | Leaf sequencable _ _ => sequencable
  | Compound _ _ => false
  end.

(** The sequencable leaves under [conf], each by its path from the root,
    in pre-order, the children of a composite in declared order. *)
Fixpoint sequencableLeaves (path : PathToProp) (conf : PropTypeConfig)
  : list PathToProp :=
  match conf with
  | Leaf sequencable _ _ => if sequencable then [path] else []
  | Compound props _ =>
      flat_map (fun kv => sequencableLeaves (path ++ [PStr (fst kv)]) (snd kv))
               props
  end.

(** [map.set(JSON.stringify(path), next)] for each leaf in turn, [next]
    counting up. *)
Fixpoint assignOrder (leaves : list PathToProp) (next : nat)
  (mapping : gmap string nat) : gmap string nat :=
  match leaves with
  | [] => mapping
  | path :: rest =>
      assignOrder rest (S next) (<[stringify_path path := next]> mapping)
  end.

(** Modelled from the spec: [getOrderingOfPropTypeConfig] is the spec's
    canonicalOrder, one pre-order traversal of the schema that gives each
    sequencable leaf the next integer from 0. The mapping is keyed by
    [JSON.stringify] of the path, as the caller looks it up. *)
Definition getOrderingOfPropTypeConfig (conf : PropTypeConfig)
  : gmap string nat :=
  assignOrder (sequencableLeaves [] conf) 0%nat ∅.

(** Modelled from the spec: [getPropDefaultsOfSheetObject] is the spec's
    defaultsOf. It mirrors the composite structure with each leaf's own
    default; a composite with no leaf below it contributes nothing to its
    parent. [defaultsOf] is [None] for such a branch. *)
Fixpoint defaultsOf (conf : PropTypeConfig) : JSValue :=
  match conf with
  | Leaf _ default _ => Some default
  | Compound props _ =>
      match omap (fun kv => match defaultsOf (snd kv) with
                            | Some d => Some (fst kv, d)
                            | None => None
                            end) props with
      | [] => None
      | members => Some (JObj members)
      end
  end.

Definition getPropDefaultsOfSheetObject (conf : PropTypeConfig) : JSON :=
  match defaultsOf conf with
  | Some defaults => defaults
  | None => JObj []
  end.

End PropTypes.

Import PropTypes.

(* ===================================================================== *)
(** * lodash [set], and [getDeep]                                         *)
(* ===================================================================== *)

Module Lodash.

#[local] Set Warnings "-register-all".

Definition SequenceTrackId := string.

(** [IPropPathToTrackIdTree]: under each name a track id or a tree. A
    tree that [set] creates is an array when the name after it is an
    index; [isArray] records it, and an array is modelled by its
    properties like an object. Objects are modelled by their own
    properties: what an object inherits from its prototype, and the
    [length] of an array, are not in the tree, and [set] has no result
    here where it would read or assign them. *)
Inductive TrackIdTree : Type :=
| TId (trackId : SequenceTrackId)
| TObj (isArray : bool) (props : list (string * TrackIdTree)).

(** The map [{}]. *)
Definition emptyMap : TrackIdTree := TObj false [].

Definition toKey (seg : PathSegment) : string :=
  match seg with
  | PStr key => key
  | PNum index => string_of_Z index
  end.

Definition MAX_SAFE_INTEGER : Z := 9007199254740991.

(** [isIndex]: a non-negative integer below [MAX_SAFE_INTEGER], or a
    string that writes one in decimal without leading zeros. *)
Definition isIndex (seg : PathSegment) : bool :=
  match seg with
  | PNum index => (0 <=? index) && (index <? MAX_SAFE_INTEGER)
  | PStr key =>
      match parse_digits key with
      | (d, "") => valid_int d && (Z.of_uint d <? MAX_SAFE_INTEGER)
      | _ => false
      end
  end.

(** The keys that [baseSet] refuses to assign (lodash 4.17.21:
    if key is __proto__, constructor or prototype, return object). *)
Definition reserved (key : string) : bool :=
  String.eqb key "__proto__" || String.eqb key "constructor" ||
  String.eqb key "prototype".

(** Whether a key that is not a property of a node may name a member
    that the node inherits: for an object, the names of
    [Object.prototype]; for an array, whose prototype differs from one
    engine to the next, every key that is not an index. *)
Definition mayInherit (isArray : bool) (seg : PathSegment) : bool :=
  if isArray then negb (isIndex seg) else inherited (toKey seg).

(** [baseSet] from the node reached so far, given by its properties.
    Before the last key the value under the key is kept when it is an
    object and replaced by a new empty array or object otherwise; the
    last key is assigned [value]. A reserved key ends the walk, and what
    was created before it stays. The result is [None] where the walk
    leaves the trees of this model: when the last key is [length] on an
    array, where the assignment throws or changes the length of the
    array, and when a key before the last is no property of the node and
    may name a member that the node inherits, which the walk would then
    keep and assign to. *)
Fixpoint baseSet (isArray : bool) (props : list (string * TrackIdTree))
  (path : PathToProp) (value : TrackIdTree)
  : option (list (string * TrackIdTree)) :=
  match path with
  | [] => Some props
  | seg :: rest =>
      if reserved (toKey seg) then Some props else
      match rest with
      | [] =>
          if isArray && String.eqb (toKey seg) "length" then None
          else Some (obj_set props (toKey seg) value)
      | next :: _ =>
          match prop_named (toKey seg) props with
          | Some (TObj isArray' nested) =>
              nested' ← baseSet isArray' nested rest value;
              Some (obj_set props (toKey seg) (TObj isArray' nested'))
          | Some (TId _) =>
              nested' ← baseSet (isIndex next) [] rest value;
              Some (obj_set props (toKey seg) (TObj (isIndex next) nested'))
          | None =>
              if mayInherit isArray seg then None else
              nested' ← baseSet (isIndex next) [] rest value;
              Some (obj_set props (toKey seg) (TObj (isIndex next) nested'))
          end
      end
  end.

(** [set(object, path, value)]; the result is the object after the
    call. *)
Definition set (object : TrackIdTree) (path : PathToProp)
  (value : TrackIdTree) : option TrackIdTree :=
  match object with
  | TObj isArray props =>
      props' ← baseSet isArray props path value; Some (TObj isArray props')
  | TId _ => Some object
  end.

(** What is stored in a tree at a path: [tree[k1][k2]...], [None] when a
    name on the way is missing. *)
Fixpoint reach (tree : TrackIdTree) (path : PathToProp) : option TrackIdTree :=
  match path with
  | [] => Some tree
  | seg :: rest =>
      match tree with
      | TObj _ props =>
          match prop_named (toKey seg) props with
          | Some sub => reach sub rest
          | None => None
          end
      | TId _ => None
      end
  end.

(** The element index that a property key of an array writes. *)
Definition index_of_key (key : string) : option nat :=
  match parse_digits key with
  | (d, "") => if valid_int d then Some (Nat.of_uint d) else None
  | _ => None
  end.

(** The property [v[key]] of a serializable value. *)
Definition property (v : JSON) (key : string) : JSValue :=
  match v with
  | JObj members => prop_named key members
  | JArr elems =>
      match index_of_key key with
      | Some i => nth_error elems i
      | None => None
      end
  | _ => None
  end.

(** Modelled from the spec: [getDeep] is the spec's valueAtPath, a
    structural lookup that is undefined ([None]) when the path does not
    exist in the tree. *)
Fixpoint getDeep (v : JSON) (path : PathToProp) : JSValue :=
  match path with
  | [] => Some v
  | seg :: rest =>
      match property v (toKey seg) with
      | Some sub => getDeep sub rest
      | None => None
      end
  end.

End Lodash.

Import Lodash.

(* ===================================================================== *)
(** * Array.prototype.sort                                                *)
(* ===================================================================== *)

Module JsArray.

(** ECMAScript leaves the algorithm of [sort] to the engine. It is
    modelled by insertion sort: each element in turn is the pivot, and
    goes into the sorted prefix before the first element for which
    [comparefn pivot element] is negative. That is the place the binary
    insertion of V8 finds in a prefix that is sorted for the comparator
    of the source. *)
Fixpoint insert {A} (comparefn : A -> A -> Z) (pivot : A) (sorted : list A)
  : list A :=
  match sorted with
  | [] => [pivot]
  | element :: rest =>
      if comparefn pivot element <? 0
      then pivot :: element :: rest
      else element :: insert comparefn pivot rest
  end.

Definition sort {A} (comparefn : A -> A -> Z) (array : list A) : list A :=
  fold_left (fun sorted pivot => insert comparefn pivot sorted) array [].

(** [a > b] on numbers that may be undefined: false when either is. *)
Definition gt (a b : option nat) : bool :=
  match a, b with
  | Some x, Some y => (y <? x)%nat
  | _, _ => false
  end.

End JsArray.

(* ===================================================================== *)
(** * The class SheetObjectTemplate                                       *)
(* ===================================================================== *)

Module Template.

(** [emptyArray] of [shared/utils]: the shared empty array. *)
Definition emptyArray {A} : list A := [].

Record Track : Type := {
  pathToProp : PathToProp;
  trackId : SequenceTrackId
}.

#[export] Instance Track_eq_dec : EqDecision Track.
Proof. solve_decision. Defined.

(** The entries of [trackIdByPropPath] as [Object.entries] yields them: a
    serialized path and the id of its track, no key twice. The entries
    come in insertion order, after those whose key writes an array index;
    such a key parses to a number and is never the key of a valid
    track. *)
Definition TrackIdByPropPath := list (string * SequenceTrackId).

(** What the project keeps for one sheet: [staticOverrides.byObject] and,
    under [sequence.tracksByObject], the [trackIdByPropPath] of each
    object, both by object key. *)
Record SheetState : Type := {
  staticOverrides_byObject : gmap string JSON;
  sequence_tracksByObject : gmap string TrackIdByPropPath
}.

(** [project.pointers.historic.sheetsById], for each project. *)
Definition Historic := gmap string SheetState.
Definition Store := gmap string Historic.

Record SheetAddress : Type := {
  projectId : string;
  sheetId : string
}.

Record SheetObjectAddress : Type := {
  address_projectId : string;
  address_sheetId : string;
  objectKey : string
}.

(** A project is referred to by its id; its state is in the store. *)
Record SheetTemplate : Type := {
  sheetTemplate_address : SheetAddress;
  sheetTemplate_project : string
}.

(** [parsePathToProp]: what [JSON.parse] returns, whatever its shape;
    undefined, with one warning, when it throws. *)
Definition parsePathToProp (pathToPropInString : string) : Log JSValue :=
  match JSON_parse pathToPropInString with
  | Some pathToProp => mret (Some pathToProp)
  | None =>
      _ ← warn ("property " +:+ JSON_stringify (JStr pathToPropInString) +:+
                " cannot be parsed. Skipping.");
      mret None
  end.

(** The comparator of the sort in [getArrayOfValidSequenceTracks]. *)
Definition compareTracks (mapping : gmap string nat) (a b : Track) : Z :=
  let pathToPropA := pathToProp a in
  let pathToPropB := pathToProp b in
  let indexA := mapping !! stringify_path pathToPropA in
  let indexB := mapping !! stringify_path pathToPropB in
  if JsArray.gt indexA indexB then 1 else -1.

(** The loop over [_entries]; [arrayOfIds] is the array pushed to. An
    entry is skipped when its key does not parse, when the parsed value
    is falsy, and when no sequencable prop is found for it; the loop has
    no other test. The value that [parsePathToProp] returns is declared
    an array of strings and numbers, and as such it goes to
    [getPropConfigByPath] and into the track. For a key that is JSON text
    of another truthy value (an object, a string, a number) the declared
    types do not hold: the call then throws, or returns a track whose
    path is no array. Such a run has no value of the declared types and
    is not described further: the loop ends with [None]. *)
Fixpoint validEntries (objectConfig : PropTypeConfig)
  (_entries : TrackIdByPropPath) (arrayOfIds : list Track)
  : Log (option (list Track)) :=
  match _entries with
  | [] => mret (Some arrayOfIds)
  | (pathToPropInString, trackId) :: rest =>
      parsed ← parsePathToProp pathToPropInString;
      match parsed with
      | None => validEntries objectConfig rest arrayOfIds
      | Some value =>
          if negb (truthy value) then validEntries objectConfig rest arrayOfIds
          else
            match asPathToProp value with
            | None => mret None
            | Some pathToProp =>
                let propConfig := getPropConfigByPath objectConfig pathToProp in
                let isSequencable :=
                  match propConfig with
                  | Some conf => isPropConfSequencable conf
                  | None => false
                  end in
                if negb isSequencable
                then validEntries objectConfig rest arrayOfIds
                else validEntries objectConfig rest
                       (arrayOfIds ++ [{| pathToProp := pathToProp;
                                          trackId := trackId |}])
            end
      end
  end.

(** The body of the prism of [getArrayOfValidSequenceTracks], from the
    value of the [trackIdByPropPath] pointer and of the config pointer:
    the array it returns, or [None] when the loop ended so. *)
Definition arrayOfValidSequenceTracks (objectConfig : PropTypeConfig)
  (trackIdByPropPath : option TrackIdByPropPath)
  : Log (option (list Track)) :=
  match trackIdByPropPath with
  | None => mret (Some emptyArray)
  | Some tracks =>
      pushed ← validEntries objectConfig tracks [];
      match pushed with
      | None => mret None
      | Some arrayOfIds =>
          let mapping := getOrderingOfPropTypeConfig objectConfig in
          let arrayOfIds := JsArray.sort (compareTracks mapping) arrayOfIds in
          if (length arrayOfIds =? 0)%nat then mret (Some emptyArray)
          else mret (Some arrayOfIds)
      end
  end.

(** The loop of [getMapOfValidSequenceTracks_forStudio] on [map]. *)
Fixpoint setTracks (arr : list Track) (map : TrackIdTree)
  : option TrackIdTree :=
  match arr with
  | [] => Some map
  | track :: rest =>
      map' ← set map (pathToProp track) (TId (trackId track));
      setTracks rest map'
  end.

(** The body of the prism of [getMapOfValidSequenceTracks_forStudio]. *)
Definition mapOfValidSequenceTracks (arr : list Track) : option TrackIdTree :=
  setTracks arr emptyMap.

(** The body of the prism of [getStaticValues], from the value of the
    [staticOverrides.byObject] pointer and of the config pointer. *)
Definition staticValues (config : PropTypeConfig) (overrides : JSValue)
  : JSON :=
  let json := nullish_or overrides (JObj []) in
  let deserialized := falsy_or (deserializeAndSanitize config json) (JObj []) in
  deserialized.

Section SheetObjectTemplate.

Context {SheetObjectAction : Type}.

(** An instance. An atom is modelled by the value it holds; [_cache]
    by the names under which a prism was created. *)
Record SheetObjectTemplate : Type := {
  sheetTemplate : SheetTemplate;
  address : SheetObjectAddress;
  _config : PropTypeConfig;
  _actions : gmap string SheetObjectAction;
  _cache : gset string;
  project : string
}.

Definition constructor (sheetTemplate : SheetTemplate) (objectKey : string)
  (config : PropTypeConfig) (actions : gmap string SheetObjectAction)
  : SheetObjectTemplate :=
  {| sheetTemplate := sheetTemplate;
     address :=
       {| address_projectId := projectId (sheetTemplate_address sheetTemplate);
          address_sheetId := sheetId (sheetTemplate_address sheetTemplate);
          objectKey := objectKey |};
     _config := config;
     _actions := actions;
     _cache := ∅;
     project := sheetTemplate_project sheetTemplate |}.

(** The readonly tag [type] of every instance. *)
Definition type (self : SheetObjectTemplate) : string :=
  "Theatre_SheetObjectTemplate".

Definition staticConfig (self : SheetObjectTemplate) : PropTypeConfig :=
  _config self.

Definition staticActions (self : SheetObjectTemplate)
  : gmap string SheetObjectAction :=
  _actions self.

(** [Atom.set] on [_config]. *)
Definition reconfigure (self : SheetObjectTemplate) (config : PropTypeConfig)
  : SheetObjectTemplate :=
  {| sheetTemplate := sheetTemplate self;
     address := address self;
     _config := config;
     _actions := _actions self;
     _cache := _cache self;
     project := project self |}.

(** [createInstance] sets the config and returns a new SheetObject of
    this template; the instance after the call is given here. *)
Definition createInstance (self : SheetObjectTemplate)
  (config : PropTypeConfig) : SheetObjectTemplate :=
  reconfigure self config.

Definition registerAction (self : SheetObjectTemplate) (name : string)
  (action : SheetObjectAction) : SheetObjectTemplate :=
  {| sheetTemplate := sheetTemplate self;
     address := address self;
     _config := _config self;
     _actions := <[name := action]> (_actions self);
     _cache := _cache self;
     project := project self |}.

(** [SimpleCache.get]: the prism a method returns is created once and
    kept under the method's name. *)
Definition cached (name : string) (self : SheetObjectTemplate)
  : SheetObjectTemplate :=
  {| sheetTemplate := sheetTemplate self;
     address := address self;
     _config := _config self;
     _actions := _actions self;
     _cache := {[name]} ∪ _cache self;
     project := project self |}.

(** [pointers.historic.sheetsById[sheetId]] of a project. The maps of
    the store are read by name, as [val] reads a pointer, and a name that
    is not a key of a map is still found when it is a member of
    [Object.prototype]. For a sheet id, and for an object key under
    [tracksByObject], what is read next is a property of that member that
    no such member has, so the value is undefined as for a missing key. *)
Definition pointerToSheetState (store : Store) (project sheetId : string)
  : option SheetState :=
  historic ← store !! project; historic !! sheetId.

(** The methods that return a prism, by the value of that prism in a
    state of the store. *)
Definition getDefaultValues (self : SheetObjectTemplate) : JSON :=
  let config := _config self in
  getPropDefaultsOfSheetObject config.

(** [getStaticValues]. Under [staticOverrides.byObject] the value read
    is the value stored under the object key, and for an object key that
    is no key of the map and names a member of [Object.prototype] it is
    that member: the hook is then called on a function or an object that
    is not a serializable value, and the result is [None], the call not
    being described further. *)
Definition getStaticValues (self : SheetObjectTemplate) (store : Store)
  : option JSON :=
  let sheetState :=
    pointerToSheetState store (sheetTemplate_project (sheetTemplate self))
                        (address_sheetId (address self)) in
  let overrides :=
    s ← sheetState; staticOverrides_byObject s !! objectKey (address self) in
  if bool_decide (is_Some sheetState) && bool_decide (overrides = None) &&
     inherited (objectKey (address self))
  then None
  else Some (staticValues (_config self) overrides).

Definition getArrayOfValidSequenceTracks (self : SheetObjectTemplate)
  (store : Store) : Log (option (list Track)) :=
  let sheetState :=
    pointerToSheetState store (project self) (address_sheetId (address self)) in
  let trackIdByPropPath :=
    s ← sheetState; sequence_tracksByObject s !! objectKey (address self) in
  arrayOfValidSequenceTracks (_config self) trackIdByPropPath.

Definition getMapOfValidSequenceTracks_forStudio (self : SheetObjectTemplate)
  (store : Store) : Log (option TrackIdTree) :=
  arr ← getArrayOfValidSequenceTracks self store;
  mret (arr ≫= mapOfValidSequenceTracks).

(** A pointer is given by its path, [getPointerParts(pointer).path]. *)
Definition getDefaultsAtPointer (self : SheetObjectTemplate)
  (pointer : PathToProp) : JSValue :=
  let path := pointer in
  let defaults := getDefaultValues self in
  let defaultsAtPath := getDeep defaults path in
  defaultsAtPath.

End SheetObjectTemplate.

Arguments SheetObjectTemplate : clear implicits.

End Template.

Import Template.

(* ===================================================================== *)
(** * The notions of the statements                                       *)
(* ===================================================================== *)

Section ParserNotions.

Local Open Scope string_scope.

(** What may follow a value inside an array: a comma or the closing
    bracket. *)
Definition ends_value (rest : string) : Prop :=
  exists r, rest = String "," r \/ rest = String "]" r.

(** The text of a segment starts with a quotation mark, a minus sign or a
    digit: no white space is skipped before it and it is read by
    [parse_chars] or by [parse_number]. *)
Definition starts_scalar (s : string) : Prop :=
  exists c r, s = String c r /\
              (c = dquote \/ c = "-"%char \/ is_digit c = true).

(** The text of the elements of a path that is not empty, as
    [JSON.stringify] joins them. *)
Definition elements_text (path : PathToProp) : string :=
  join_comma (map JSON_stringify (map json_of_segment path)).

(** A result within the budget: the text left is shorter than the text
    read, and the budget was not exhausted. *)
Definition within {A} (s : string) (p : parsed A) : Prop :=
  match p with
  | Parsed _ rest => (String.length rest < String.length s)%nat
  | SyntaxError => True
  | OutOfFuel => False
  end.

End ParserNotions.

(** Decoding a key: parsing it and taking the result as a path. *)
Definition decode (key : string) : option PathToProp :=
  v ← JSON_parse key; asPathToProp v.

(** A key for which the declared types hold in the loop: it is not JSON
    text, or it parses to a falsy value, which the loop skips, or to an
    array of strings and integers. *)
Definition typedKey (key : string) : bool :=
  match JSON_parse key with
  | Some value =>
      negb (truthy value) ||
      match asPathToProp value with
      | Some _ => true
      | None => false
      end
  | None => true
  end.

Definition typedKeys (raw : TrackIdByPropPath) : bool :=
  forallb (fun entry => typedKey (fst entry)) raw.

(** The track that an entry of the raw track map contributes: its key
    decodes to a path, the path resolves to a leaf of the schema, and the
    leaf is sequencable. This is the spec's description of a valid
    entry, to compare with the loop of the source. *)
Definition surviving (objectConfig : PropTypeConfig)
  (entry : string * SequenceTrackId) : option Track :=
  path ← decode (fst entry);
  conf ← getPropConfigByPath objectConfig path;
  if isPropConfSequencable conf
  then Some {| pathToProp := path; trackId := snd entry |}
  else None.

(** The diagnostic of a key: one message when it is not JSON text. *)
Definition diagnostic (key : string) : list string :=
  match JSON_parse key with
  | Some _ => []
  | None => ["property " +:+ JSON_stringify (JStr key) +:+
             " cannot be parsed. Skipping."]
  end.

(** The paths that the keys of a raw track map decode to. *)
Definition decodedPaths (raw : TrackIdByPropPath) : list PathToProp :=
  omap (fun entry => decode (fst entry)) raw.

(** The paths of the valid entries of a raw track map, one for each
    entry. Each path is there once when no two keys of valid entries
    decode to the same path. *)
Definition validPaths (objectConfig : PropTypeConfig)
  (raw : TrackIdByPropPath) : list PathToProp :=
  pathToProp <$> omap (surviving objectConfig) raw.

(** Whether a path resolves to a sequencable leaf: [isSequencable] in the
    loop of the source. *)
Definition resolvesToSequencable (objectConfig : PropTypeConfig)
  (path : PathToProp) : bool :=
  match getPropConfigByPath objectConfig path with
  | Some conf => isPropConfSequencable conf
  | None => false
  end.

(** The index of a track in the ordering of a schema. *)
Definition orderOf (conf : PropTypeConfig) (track : Track) : option nat :=
  getOrderingOfPropTypeConfig conf !! stringify_path (pathToProp track).

(** The comparator of the source, on the ordering of the schema. *)
Definition comparator (objectConfig : PropTypeConfig)
  : Track -> Track -> Z :=
  compareTracks (getOrderingOfPropTypeConfig objectConfig).

(** Ascending by a key that may be undefined: both keys are defined and
    the first is at most the second. *)
Definition le_key {A} (key : A -> option nat) (a b : A) : Prop :=
  exists i j, key a = Some i /\ key b = Some j /\ (i <= j)%nat.

(** Two key sequences of which one is a prefix of the other. *)
Fixpoint comparable (p q : list string) : bool :=
  match p, q with
  | [], _ => true
  | _, [] => true
  | a :: p', b :: q' => String.eqb a b && comparable p' q'
  end.

(** Disjoint paths: along their keys, neither is a prefix of the other. *)
Definition disjoint (p q : PathToProp) : Prop :=
  comparable (toKey <$> p) (toKey <$> q) = false.

(** A path that [set] assigns: none of its keys is reserved. *)
Definition assignable (path : PathToProp) : bool :=
  forallb (fun seg => negb (reserved (toKey seg))) path.


(** The decimal numeral of an index of an array. *)
Definition index_key (i : nat) : string :=
  NilEmpty.string_of_uint (Nat.to_uint i).

(** The value stored in a tree under a chain of keys, read off the tree
    itself: under a key of an object, what the first member of that name
    holds; under the numeral of an index of an array, the element at the
    index; nothing under a key of any other value. This is the spec's
    description of a path that exists in the tree, to compare with
    [getDeep]. *)
Inductive stored_at : JSON -> list string -> JSON -> Prop :=
| stored_here (v : JSON) : stored_at v [] v
| stored_member (before after : list (string * JSON)) (key : string)
    (sub stored : JSON) (rest : list string) :
    key ∉ (fst <$> before) ->
    stored_at sub rest stored ->
    stored_at (JObj (before ++ (key, sub) :: after)) (key :: rest) stored
| stored_element (elems : list JSON) (i : nat) (sub stored : JSON)
    (rest : list string) :
    nth_error elems i = Some sub ->
    stored_at sub rest stored ->
    stored_at (JArr elems) (index_key i :: rest) stored.

(* ===================================================================== *)
(** * Sample schemas and track maps                                       *)
(* ===================================================================== *)

Module Sample.

Definition noSanitize : JSON -> JSValue := fun _ => None.

Definition prop (sequencable : bool) : PropTypeConfig :=
  Leaf sequencable (JNum 0) noSanitize.

(** The schema of the example of the spec, section 8. *)
Definition schema : PropTypeConfig :=
  Compound
    [("transform",
      Compound [("type", prop true);
                ("position", Compound [("x", prop true)] noSanitize)]
               noSanitize)]
    noSanitize.

Definition path_type : PathToProp := [PStr "transform"; PStr "type"].
Definition path_x : PathToProp :=
  [PStr "transform"; PStr "position"; PStr "x"].
Definition path_bogus : PathToProp := [PStr "bogus"].

(** Its raw track map, and the same with the first two entries inserted
    in the other order. *)
Definition tracks : TrackIdByPropPath :=
  [(stringify_path path_x, "trk2");
   (stringify_path path_type, "trk1");
   (stringify_path path_bogus, "trkX")].

Definition tracks_swapped : TrackIdByPropPath :=
  [(stringify_path path_type, "trk1");
   (stringify_path path_x, "trk2");
   (stringify_path path_bogus, "trkX")].

(** A track map with a corrupted key. *)
Definition tracks_corrupted : TrackIdByPropPath :=
  ("[oops", "trkY") :: tracks.

(** A schema with one sequencable prop [a] and one that is not, [b]. *)
Definition flat : PropTypeConfig :=
  Compound [("a", prop true); ("b", prop false)] noSanitize.

Definition path_a : PathToProp := [PStr "a"].
Definition path_b : PathToProp := [PStr "b"].

(** Two keys that are different strings and decode to the same path: the
    serialization of [a], and the same text after a space. *)
Definition key_a : string := stringify_path path_a.
Definition key_a_spaced : string := " " +:+ stringify_path path_a.

(** A schema whose hook ignores its input. *)
Definition filling : PropTypeConfig :=
  Compound [] (fun _ => Some (JObj [("filled", JBool true)])).

(** A schema whose hook returns its input. *)
Definition lenient : PropTypeConfig :=
  Compound [("a", prop true)] (fun json => Some json).

End Sample.


(* ===================================================================== *)
(** * JSON.parse after JSON.stringify                                     *)
(* ===================================================================== *)

Section RoundTrip.

Local Open Scope string_scope.

Lemma append_assoc (a b c : string) : (a ++ b) ++ c = a ++ (b ++ c).
Proof.
  induction a as [|x a IH]; [reflexivity|].
  change (String x ((a ++ b) ++ c) = String x (a ++ (b ++ c))).
  now rewrite IH.
Qed.

(** One escaped code unit is read back as that code unit. *)
Lemma parse_chars_escape_char (c : ascii) (tail : string) :
  parse_chars (escape_char c ++ tail) = push_char c (parse_chars tail).
Proof.
  destruct c as [[] [] [] [] [] [] [] []]; reflexivity.
Qed.

Lemma parse_chars_quote_body (s rest : string) :
  parse_chars (quote_body s ++ String dquote rest) = Some (s, rest).
Proof.
  induction s as [|c s IH]; [reflexivity|].
  change (quote_body (String c s)) with (escape_char c ++ quote_body s).
  rewrite append_assoc, parse_chars_escape_char, IH.
  reflexivity.
Qed.

Lemma ends_value_no_digit (rest : string) :
  ends_value rest -> parse_digits rest = (Nil, rest).
Proof. intros [r [-> | ->]]; reflexivity. Qed.

Lemma parse_digits_step (c : ascii) (s : string) (f : uint -> uint) :
  digit_of c = Some f ->
  parse_digits (String c s) = (let (u, r) := parse_digits s in (f u, r)).
Proof. intros Hc. simpl. now rewrite Hc. Qed.

Lemma parse_digits_string_of_uint (d : uint) (rest : string) :
  parse_digits rest = (Nil, rest) ->
  parse_digits (NilEmpty.string_of_uint d ++ rest) = (d, rest).
Proof.
  intros Hrest.
  induction d as [|d IH|d IH|d IH|d IH|d IH|d IH|d IH|d IH|d IH|d IH];
    [exact Hrest | ..];
    cbn [NilEmpty.string_of_uint];
    match goal with
    | |- parse_digits (String ?c ?s ++ rest) = (?f _, _) =>
        change (String c s ++ rest) with (String c (s ++ rest));
        rewrite (parse_digits_step c (s ++ rest) f eq_refl), IH
    end;
    reflexivity.
Qed.

Lemma valid_int_unorm (d : uint) : valid_int (unorm d) = true.
Proof.
  unfold unorm. pose proof (DecimalFacts.nzhead_nonzero d) as Hnz.
  destruct (nzhead d) as [|d'| | | | | | | | |]; try reflexivity.
  now destruct (Hnz d').
Qed.

Lemma to_uint_unorm (p : positive) : unorm (Pos.to_uint p) = Pos.to_uint p.
Proof.
  rewrite <- DecimalPos.Unsigned.to_of, DecimalPos.Unsigned.of_to.
  reflexivity.
Qed.

Lemma valid_int_to_uint (p : positive) : valid_int (Pos.to_uint p) = true.
Proof. rewrite <- to_uint_unorm. apply valid_int_unorm. Qed.

(** The digits of a valid integer part, then the end of the value, are
    read as that integer. *)
Lemma parse_number_digits (d : uint) (rest : string) :
  valid_int d = true -> ends_value rest ->
  parse_number (NilEmpty.string_of_uint d ++ rest)
  = Some (JNum (Z.of_uint d), rest).
Proof.
  intros Hvalid Hrest.
  pose proof (parse_digits_string_of_uint d rest
                (ends_value_no_digit rest Hrest)) as Hdigits.
  unfold parse_number.
  assert (Hsign :
    match NilEmpty.string_of_uint d ++ rest with
    | String c r =>
        if (c =? "-")%char then (true, r)
        else (false, NilEmpty.string_of_uint d ++ rest)
    | "" => (false, NilEmpty.string_of_uint d ++ rest)
    end = (false, NilEmpty.string_of_uint d ++ rest)).
  { destruct d; try reflexivity. discriminate Hvalid. }
  rewrite Hsign, Hdigits, Hvalid.
  destruct Hrest as [r [-> | ->]]; reflexivity.
Qed.

Lemma parse_number_negative (d : uint) (rest : string) :
  valid_int d = true -> ends_value rest ->
  parse_number (String "-" (NilEmpty.string_of_uint d ++ rest))
  = Some (JNum (- Z.of_uint d), rest).
Proof.
  intros Hvalid Hrest.
  pose proof (parse_digits_string_of_uint d rest
                (ends_value_no_digit rest Hrest)) as Hdigits.
  unfold parse_number. rewrite Ascii.eqb_refl, Hdigits, Hvalid.
  destruct Hrest as [r [-> | ->]]; reflexivity.
Qed.

Lemma parse_number_string_of_Z (n : Z) (rest : string) :
  ends_value rest ->
  parse_number (string_of_Z n ++ rest) = Some (JNum n, rest).
Proof.
  intros Hrest. unfold string_of_Z.
  rewrite <- (DecimalZ.of_to n) at 2.
  destruct n as [|p|p]; cbn [Z.to_int NilEmpty.string_of_int Z.of_int].
  - apply (parse_number_digits (D0 Nil)); [reflexivity | exact Hrest].
  - apply parse_number_digits; [apply valid_int_to_uint | exact Hrest].
  - apply parse_number_negative; [apply valid_int_to_uint | exact Hrest].
Qed.

Lemma length_append (a b : string) :
  String.length (a ++ b) = (String.length a + String.length b)%nat.
Proof.
  induction a as [|x a IH]; [reflexivity|].
  change (S (String.length (a ++ b)) = S (String.length a + String.length b)).
  now rewrite IH.
Qed.

Lemma starts_scalar_segment (seg : PathSegment) (rest : string) :
  starts_scalar (JSON_stringify (json_of_segment seg) ++ rest).
Proof.
  destruct seg as [key|n]; cbn [json_of_segment JSON_stringify].
  - exists dquote; eexists. split; [reflexivity | now left].
  - unfold string_of_Z.
    destruct n as [|p|p]; cbn [Z.to_int NilEmpty.string_of_int].
    + exists "0"%char; eexists. split; [reflexivity | now right; right].
    + pose proof (DecimalPos.Unsigned.to_uint_nonnil p) as Hnil.
      destruct (Pos.to_uint p); [now destruct Hnil | ..];
        eexists; eexists; (split; [reflexivity | now right; right]).
    + exists "-"%char; eexists. split; [reflexivity | now right; left].
Qed.

Lemma starts_scalar_length (s : string) :
  starts_scalar s -> (1 <= String.length s)%nat.
Proof. intros (c & r & -> & _). cbn. lia. Qed.

Lemma parse_value_array (fuel : nat) (s : string) :
  starts_scalar s ->
  parse_value (S fuel) (String "[" s)
  = match parse_elements fuel s with
    | Parsed elems r' => Parsed (JArr elems) r'
    | SyntaxError => SyntaxError
    | OutOfFuel => OutOfFuel
    end.
Proof.
  intros (c & r & -> & [-> | [-> | Hc]]); [reflexivity | reflexivity |].
  destruct c as [[] [] [] [] [] [] [] []]; try discriminate Hc; reflexivity.
Qed.

Lemma parse_value_segment (fuel : nat) (seg : PathSegment) (rest : string) :
  ends_value rest ->
  parse_value (S fuel) (JSON_stringify (json_of_segment seg) ++ rest)
  = Parsed (json_of_segment seg) rest.
Proof.
  intros Hrest. destruct seg as [key|n]; cbn [json_of_segment JSON_stringify].
  - unfold QuoteJSONString.
    change (String dquote (quote_body key ++ String dquote "") ++ rest)
      with (String dquote ((quote_body key ++ String dquote "") ++ rest)).
    rewrite append_assoc.
    change (String dquote "" ++ rest) with (String dquote rest).
    cbn [parse_value skip_ws is_ws dquote].
    change (String "034" ?x) with (String dquote x).
    now rewrite parse_chars_quote_body.
  - pose proof (parse_number_string_of_Z n rest Hrest) as Hnum.
    pose proof (starts_scalar_segment (PNum n) rest) as Hstart.
    cbn [json_of_segment JSON_stringify] in Hstart.
    destruct Hstart as (c & r & Heq & Hc). rewrite Heq in *.
    destruct Hc as [-> | [-> | Hc]].
    + exfalso. unfold parse_number in Hnum. discriminate Hnum.
    + cbn [parse_value skip_ws is_ws]. now rewrite Hnum.
    + destruct c as [[] [] [] [] [] [] [] []]; try discriminate Hc;
        cbn [parse_value skip_ws is_ws]; now rewrite Hnum.
Qed.

Lemma elements_text_cons (seg next : PathSegment) (path : PathToProp) :
  elements_text (seg :: next :: path)
  = JSON_stringify (json_of_segment seg) ++
      String "," (elements_text (next :: path)).
Proof. reflexivity. Qed.

Lemma parse_elements_S (fuel : nat) (s : string) :
  parse_elements (S fuel) s
  = match parse_value fuel s with
    | Parsed v r =>
        match skip_ws r with
        | String ","%char r' =>
            match parse_elements fuel r' with
            | Parsed vs r'' => Parsed (v :: vs) r''
            | SyntaxError => SyntaxError
            | OutOfFuel => OutOfFuel
            end
        | String "]"%char r' => Parsed [v] r'
        | _ => SyntaxError
        end
    | SyntaxError => SyntaxError
    | OutOfFuel => OutOfFuel
    end.
Proof. reflexivity. Qed.

Lemma parse_elements_path (path : PathToProp) :
  path <> [] ->
  forall (fuel : nat) (rest : string),
    (String.length (elements_text path ++ String "]" rest) <= fuel)%nat ->
    parse_elements fuel (elements_text path ++ String "]" rest)
    = Parsed (map json_of_segment path) rest.
Proof.
  induction path as [|seg path IH]; [congruence|]. intros _ fuel rest Hfuel.
  destruct path as [|next path].
  - (* the last element *)
    change (elements_text [seg]) with (JSON_stringify (json_of_segment seg)) in *.
    pose proof (starts_scalar_length _ (starts_scalar_segment seg (String "]" rest))).
    destruct fuel as [|[|fuel]]; [lia | | ].
    { rewrite length_append in *. cbn [String.length] in *.
      pose proof (starts_scalar_length _ (starts_scalar_segment seg "")) as H1.
      rewrite length_append in H1. cbn [String.length] in H1. lia. }
    rewrite parse_elements_S.
    rewrite parse_value_segment by (exists rest; now right).
    reflexivity.
  - rewrite elements_text_cons in *. rewrite append_assoc in *.
    change (String "," (elements_text (next :: path)) ++ String "]" rest)
      with (String "," (elements_text (next :: path) ++ String "]" rest)) in *.
    rewrite length_append in Hfuel. cbn [String.length] in Hfuel.
    pose proof (starts_scalar_length _ (starts_scalar_segment seg "")) as H1.
    rewrite length_append in H1. cbn [String.length] in H1.
    destruct fuel as [|[|fuel]]; [lia | lia | ].
    rewrite parse_elements_S.
    rewrite parse_value_segment by (eexists; now left).
    cbn [skip_ws is_ws].
    rewrite IH; [reflexivity | congruence | lia].
Qed.

(** [JSON.parse(JSON.stringify(path))] is the array of the segments of
    [path]. *)
Lemma JSON_parse_stringify_path (path : PathToProp) :
  JSON_parse (stringify_path path) = Some (json_of_path path).
Proof.
  unfold JSON_parse, stringify_path, json_of_path.
  destruct path as [|seg path]; [reflexivity|].
  change (JSON_stringify (JArr (map json_of_segment (seg :: path))))
    with (String "[" (elements_text (seg :: path) ++ String "]" "")).
  rewrite parse_value_array.
  2:{ destruct path as [|next path].
      - apply (starts_scalar_segment seg).
      - rewrite elements_text_cons, append_assoc.
        apply (starts_scalar_segment seg). }
  rewrite parse_elements_path; [reflexivity | congruence |].
  cbn [String.length]. lia.
Qed.

Lemma asPathToProp_json_of_path (path : PathToProp) :
  asPathToProp (json_of_path path) = Some path.
Proof.
  unfold asPathToProp, json_of_path.
  induction path as [|seg path IH]; [reflexivity|].
  cbn [map mapM]. destruct seg; cbn; rewrite IH; reflexivity.
Qed.

(** A value that is a path is the array of its segments: the key that
    the source computes from the parsed value is [stringify_path]. *)
Lemma asPathToProp_inv (v : JSON) (path : PathToProp) :
  asPathToProp v = Some path -> v = json_of_path path.
Proof.
  destruct v as [| | | | |elems|]; try discriminate. cbn [asPathToProp].
  unfold json_of_path. revert path.
  induction elems as [|e elems IH]; intros path H.
  - cbn in H. now inversion H.
  - cbn [mapM] in H.
    destruct (segment_of_json e) as [seg|] eqn:Hseg; [|discriminate].
    cbn in H. destruct (mapM segment_of_json elems) as [segs|]; [|discriminate].
    cbn in H. inversion H; subst. cbn [map].
    specialize (IH segs eq_refl). inversion IH as [Helems].
    rewrite <- Helems. destruct e; try discriminate; now inversion Hseg.
Qed.

Lemma decode_stringify_path (path : PathToProp) :
  decode (stringify_path path) = Some path.
Proof.
  unfold decode. rewrite JSON_parse_stringify_path. cbn.
  apply asPathToProp_json_of_path.
Qed.

Lemma stringify_path_inj (p q : PathToProp) :
  stringify_path p = stringify_path q -> p = q.
Proof.
  intros Heq. pose proof (decode_stringify_path p) as Hp.
  rewrite Heq, decode_stringify_path in Hp. congruence.
Qed.

End RoundTrip.

(* ===================================================================== *)
(** * The budget of JSON.parse is never exhausted                         *)
(* ===================================================================== *)

Section Fuel.

Local Open Scope string_scope.
Local Open Scope nat_scope.

Lemma skip_ws_length (s : string) :
  String.length (skip_ws s) <= String.length s.
Proof.
  induction s as [|c s IH]; [reflexivity|].
  cbn [skip_ws]. destruct (is_ws c); cbn [String.length]; lia.
Qed.

Lemma strip_prefix_length (word s rest : string) :
  strip_prefix word s = Some rest ->
  String.length s = String.length word + String.length rest.
Proof.
  revert s. induction word as [|a word IH]; intros s H.
  - cbn in H. now inversion H.
  - destruct s as [|b s]; [discriminate|]. cbn [strip_prefix] in H.
    destruct (a =? b)%char; [|discriminate].
    cbn [String.length]. now rewrite (IH s H).
Qed.

Lemma push_char_Some (c : ascii) (m : option (string * string))
  (x rest : string) :
  push_char c m = Some (x, rest) -> exists x', m = Some (x', rest).
Proof.
  destruct m as [[x' r']|]; [|discriminate]. cbn. intros H.
  inversion H; subst. now exists x'.
Qed.

Lemma parse_chars_eq (c : ascii) (rest : string) :
  parse_chars (String c rest)
  = if (c =? dquote)%char then Some ("", rest)
    else if (c =? "\")%char then
      match rest with
      | String e rest1 =>
          if (e =? "u")%char then
            match rest1 with
            | String h1 (String h2 (String h3 (String h4 rest2))) =>
                match code_unit h1 h2 h3 h4 with
                | Some c' => push_char c' (parse_chars rest2)
                | None => None
                end
            | _ => None
            end
          else
            match unescape e with
            | Some c' => push_char c' (parse_chars rest1)
            | None => None
            end
      | "" => None
      end
    else if is_control c then None
    else push_char c (parse_chars rest).
Proof. reflexivity. Qed.

(** A string literal ends before the text does. *)
Lemma parse_chars_length (n : nat) :
  forall s x rest,
    String.length s <= n -> parse_chars s = Some (x, rest) ->
    String.length rest < String.length s.
Proof.
  induction n as [|n IH]; intros s x rest Hn H.
  - destruct s; [discriminate | cbn in Hn; lia].
  - destruct s as [|c s]; [discriminate|].
    rewrite parse_chars_eq in H. cbn [String.length] in *.
    destruct (c =? dquote)%char.
    { inversion H; subst. lia. }
    destruct (c =? "\")%char.
    + destruct s as [|e s]; [discriminate|]. cbn [String.length] in *.
      destruct (e =? "u")%char.
      * destruct s as [|h1 [|h2 [|h3 [|h4 s]]]]; try discriminate.
        destruct (code_unit h1 h2 h3 h4); [|discriminate].
        apply push_char_Some in H as [x' H].
        cbn [String.length] in *. apply IH in H; lia.
      * destruct (unescape e); [|discriminate].
        apply push_char_Some in H as [x' H]. apply IH in H; lia.
    + destruct (is_control c); [discriminate|].
      apply push_char_Some in H as [x' H]. apply IH in H; lia.
Qed.

Lemma parse_digits_length (s : string) :
  forall d rest,
    parse_digits s = (d, rest) ->
    String.length rest <= String.length s /\
    (d <> Nil -> String.length rest < String.length s).
Proof.
  induction s as [|c s IH]; intros d rest H.
  - cbn in H. inversion H; subst. split; [reflexivity | congruence].
  - cbn [parse_digits] in H. destruct (digit_of c).
    + destruct (parse_digits s) as [u' r'] eqn:E. inversion H; subst.
      destruct (IH u' rest eq_refl) as [Hle _]. cbn [String.length].
      split; intros; lia.
    + inversion H; subst. split; [reflexivity | congruence].
Qed.

Lemma parse_fraction_length (s frac rest : string) :
  parse_fraction s = Some (frac, rest) ->
  String.length rest <= String.length s.
Proof.
  destruct s as [|c s]; cbn [parse_fraction]; intros H.
  - inversion H; subst. reflexivity.
  - destruct (c =? ".")%char; [|inversion H; subst; reflexivity].
    destruct (parse_digits s) as [d r'] eqn:E.
    destruct (parse_digits_length s d r' E) as [Hle _].
    destruct d; inversion H; subst; cbn [String.length]; lia.
Qed.

Lemma parse_exponent_length (s exp rest : string) :
  parse_exponent s = Some (exp, rest) ->
  String.length rest <= String.length s.
Proof.
  destruct s as [|c s]; cbn [parse_exponent]; intros H.
  - inversion H; subst. reflexivity.
  - destruct ((c =? "e")%char || (c =? "E")%char);
      [|inversion H; subst; reflexivity].
    assert (Hsign : String.length (snd (parse_sign s)) <= String.length s).
    { destruct s as [|c' s]; cbn [parse_sign]; [reflexivity|].
      destruct ((c' =? "+")%char || (c' =? "-")%char);
        cbn [snd String.length]; lia. }
    destruct (parse_sign s) as [sign r1]. cbn [snd] in Hsign.
    destruct (parse_digits r1) as [d r'] eqn:E.
    destruct (parse_digits_length r1 d r' E) as [Hle _].
    destruct d; inversion H; subst; cbn [String.length]; lia.
Qed.

(** A number takes at least one digit. *)
Lemma parse_number_length (s : string) (v : JSON) (rest : string) :
  parse_number s = Some (v, rest) ->
  String.length rest < String.length s.
Proof.
  unfold parse_number. intros H.
  assert (Hsign : exists neg s1,
    match s with
    | String c r => if (c =? "-")%char then (true, r) else (false, s)
    | "" => (false, s)
    end = (neg, s1) /\ String.length s1 <= String.length s).
  { destruct s as [|c r]; [now exists false, ""|].
    destruct (c =? "-")%char; eexists; eexists; (split; [reflexivity|]);
      cbn [String.length]; lia. }
  destruct Hsign as (neg & s1 & Hsign & Hs1). rewrite Hsign in H.
  destruct (parse_digits s1) as [int s2] eqn:Hint.
  destruct (parse_digits_length s1 int s2 Hint) as [_ Hlt].
  destruct (valid_int int) eqn:Hvalid; [|discriminate].
  assert (Hs2 : String.length s2 < String.length s1).
  { apply Hlt. intros ->. discriminate Hvalid. }
  destruct (parse_fraction s2) as [[frac s3]|] eqn:Hfrac; [|discriminate].
  apply parse_fraction_length in Hfrac.
  destruct (parse_exponent s3) as [[exp s4]|] eqn:Hexp; [|discriminate].
  apply parse_exponent_length in Hexp.
  assert (s4 = rest) as <-.
  { destruct frac, exp; now inversion H. }
  lia.
Qed.

Lemma parse_value_S (fuel : nat) (s : string) :
  parse_value (S fuel) s
  = match skip_ws s with
    | "" => SyntaxError
    | String c r =>
        if (c =? "n")%char then expect "null" JNull (String c r)
        else if (c =? "t")%char then expect "true" (JBool true) (String c r)
        else if (c =? "f")%char then expect "false" (JBool false) (String c r)
        else if (c =? dquote)%char then
          match parse_chars r with
          | Some (str, r') => Parsed (JStr str) r'
          | None => SyntaxError
          end
        else if (c =? "[")%char then
          if match skip_ws r with
             | String c' _ => (c' =? "]")%char
             | "" => false
             end
          then match skip_ws r with
               | String _ r' => Parsed (JArr []) r'
               | "" => SyntaxError
               end
          else match parse_elements fuel r with
               | Parsed elems r' => Parsed (JArr elems) r'
               | SyntaxError => SyntaxError
               | OutOfFuel => OutOfFuel
               end
        else if (c =? "{")%char then
          if match skip_ws r with
             | String c' _ => (c' =? "}")%char
             | "" => false
             end
          then match skip_ws r with
               | String _ r' => Parsed (JObj []) r'
               | "" => SyntaxError
               end
          else match parse_members fuel r with
               | Parsed members r' =>
                   Parsed (JObj (fold_left
                                   (fun o kv => obj_set o (fst kv) (snd kv))
                                   members [])) r'
               | SyntaxError => SyntaxError
               | OutOfFuel => OutOfFuel
               end
        else of_option (parse_number (String c r))
    end.
Proof.
  cbn [parse_value]. destruct (skip_ws s) as [|c r]; [reflexivity|].
  destruct c as [[] [] [] [] [] [] [] []]; try reflexivity;
    (destruct (skip_ws r) as [|c' r']; [reflexivity|];
     destruct c' as [[] [] [] [] [] [] [] []]; reflexivity).
Qed.

Lemma parse_members_S (fuel : nat) (s : string) :
  parse_members (S fuel) s
  = match skip_ws s with
    | "" => SyntaxError
    | String c r =>
        if (c =? dquote)%char then
          match parse_chars r with
          | Some (k, r1) =>
              match skip_ws r1 with
              | "" => SyntaxError
              | String c1 r2 =>
                  if (c1 =? ":")%char then
                    match parse_value fuel r2 with
                    | Parsed v r3 =>
                        match skip_ws r3 with
                        | "" => SyntaxError
                        | String c3 r4 =>
                            if (c3 =? ",")%char then
                              match parse_members fuel r4 with
                              | Parsed kvs r5 => Parsed ((k, v) :: kvs) r5
                              | SyntaxError => SyntaxError
                              | OutOfFuel => OutOfFuel
                              end
                            else if (c3 =? "}")%char then Parsed [(k, v)] r4
                            else SyntaxError
                        end
                    | SyntaxError => SyntaxError
                    | OutOfFuel => OutOfFuel
                    end
                  else SyntaxError
              end
          | None => SyntaxError
          end
        else SyntaxError
    end.
Proof.
  cbn [parse_members]. destruct (skip_ws s) as [|c r]; [reflexivity|].
  destruct c as [[] [] [] [] [] [] [] []]; try reflexivity.
  destruct (parse_chars r) as [[k r1]|]; [|reflexivity].
  destruct (skip_ws r1) as [|c1 r2]; [reflexivity|].
  destruct c1 as [[] [] [] [] [] [] [] []]; try reflexivity.
  destruct (parse_value fuel r2) as [v r3| |]; try reflexivity.
  destruct (skip_ws r3) as [|c3 r4]; [reflexivity|].
  destruct c3 as [[] [] [] [] [] [] [] []]; reflexivity.
Qed.

Lemma parse_elements_S' (fuel : nat) (s : string) :
  parse_elements (S fuel) s
  = match parse_value fuel s with
    | Parsed v r =>
        match skip_ws r with
        | "" => SyntaxError
        | String c r' =>
            if (c =? ",")%char then
              match parse_elements fuel r' with
              | Parsed vs r'' => Parsed (v :: vs) r''
              | SyntaxError => SyntaxError
              | OutOfFuel => OutOfFuel
              end
            else if (c =? "]")%char then Parsed [v] r'
            else SyntaxError
        end
    | SyntaxError => SyntaxError
    | OutOfFuel => OutOfFuel
    end.
Proof.
  rewrite parse_elements_S.
  destruct (parse_value fuel s) as [v r| |]; try reflexivity.
  destruct (skip_ws r) as [|c r']; [reflexivity|].
  destruct c as [[] [] [] [] [] [] [] []]; reflexivity.
Qed.

Lemma within_expect (word : string) (v : JSON) (s0 s : string) :
  word <> "" -> String.length s <= String.length s0 ->
  within s0 (expect word v s).
Proof.
  intros Hword Hs. unfold expect.
  destruct (strip_prefix word s) as [rest|] eqn:E; [|exact I].
  apply strip_prefix_length in E. cbn [within].
  destruct word; [congruence|]. cbn [String.length] in E. lia.
Qed.

Lemma parse_fuel (fuel : nat) :
  (forall s, 2 * String.length s < fuel -> within s (parse_value fuel s)) /\
  (forall s, 2 * String.length s + 1 < fuel ->
             within s (parse_elements fuel s)) /\
  (forall s, 2 * String.length s + 1 < fuel ->
             within s (parse_members fuel s)).
Proof.
  induction fuel as [|fuel (IHv & IHe & IHm)].
  { repeat split; intros; lia. }
  split; [|split]; intros s Hfuel.
  - (* parse_value *)
    rewrite parse_value_S. pose proof (skip_ws_length s) as Hws.
    destruct (skip_ws s) as [|c r]; [exact I|]. cbn [String.length] in Hws.
    destruct (c =? "n")%char; [now apply within_expect|].
    destruct (c =? "t")%char; [now apply within_expect|].
    destruct (c =? "f")%char; [now apply within_expect|].
    destruct (c =? dquote)%char.
    { destruct (parse_chars r) as [[str r']|] eqn:E; [|exact I].
      apply (parse_chars_length _ _ _ _ (Nat.le_refl _)) in E.
      cbn [within]. lia. }
    destruct (c =? "[")%char.
    { pose proof (skip_ws_length r) as Hr.
      destruct (skip_ws r) as [|c' r'].
      - specialize (IHe r ltac:(lia)).
        destruct (parse_elements fuel r); cbn [within] in *;
          [lia | exact I | exact IHe].
      - cbn [String.length] in Hr. destruct (c' =? "]")%char.
        + cbn [within]. lia.
        + specialize (IHe r ltac:(lia)).
          destruct (parse_elements fuel r); cbn [within] in *;
          [lia | exact I | exact IHe]. }
    destruct (c =? "{")%char.
    { pose proof (skip_ws_length r) as Hr.
      destruct (skip_ws r) as [|c' r'].
      - specialize (IHm r ltac:(lia)).
        destruct (parse_members fuel r); cbn [within] in *;
          [lia | exact I | exact IHm].
      - cbn [String.length] in Hr. destruct (c' =? "}")%char.
        + cbn [within]. lia.
        + specialize (IHm r ltac:(lia)).
          destruct (parse_members fuel r); cbn [within] in *;
          [lia | exact I | exact IHm]. }
    destruct (parse_number (String c r)) as [[v rest]|] eqn:E; [|exact I].
    apply parse_number_length in E. cbn [of_option within String.length] in *. lia.
  - (* parse_elements *)
    rewrite parse_elements_S'. specialize (IHv s ltac:(lia)).
    destruct (parse_value fuel s) as [v r| |]; cbn [within] in *;
      [|exact I|exact IHv].
    pose proof (skip_ws_length r) as Hr.
    destruct (skip_ws r) as [|c r']; [exact I|]. cbn [String.length] in Hr.
    destruct (c =? ",")%char.
    + specialize (IHe r' ltac:(lia)).
      destruct (parse_elements fuel r'); cbn [within] in *;
          [lia | exact I | exact IHe].
    + destruct (c =? "]")%char; cbn [within]; [lia | exact I].
  - (* parse_members *)
    rewrite parse_members_S. pose proof (skip_ws_length s) as Hws.
    destruct (skip_ws s) as [|c r]; [exact I|]. cbn [String.length] in Hws.
    destruct (c =? dquote)%char; [|exact I].
    destruct (parse_chars r) as [[k r1]|] eqn:E; [|exact I].
    apply (parse_chars_length _ _ _ _ (Nat.le_refl _)) in E.
    pose proof (skip_ws_length r1) as Hr1.
    destruct (skip_ws r1) as [|c1 r2]; [exact I|]. cbn [String.length] in Hr1.
    destruct (c1 =? ":")%char; [|exact I].
    specialize (IHv r2 ltac:(lia)).
    destruct (parse_value fuel r2) as [v r3| |]; cbn [within] in *;
      [|exact I|exact IHv].
    pose proof (skip_ws_length r3) as Hr3.
    destruct (skip_ws r3) as [|c3 r4]; [exact I|]. cbn [String.length] in Hr3.
    destruct (c3 =? ",")%char.
    + specialize (IHm r4 ltac:(lia)).
      destruct (parse_members fuel r4); cbn [within] in *;
          [lia | exact I | exact IHm].
    + destruct (c3 =? "}")%char; cbn [within]; [lia | exact I].
Qed.

(** [JSON_parse] is [None] only for a syntax error or for text after the
    value: its budget is enough for every text. *)
Lemma JSON_parse_fuel (text : string) :
  parse_value (S (2 * String.length text)) text <> OutOfFuel.
Proof.
  pose proof (proj1 (parse_fuel (S (2 * String.length text))) text
                (Nat.lt_succ_diag_r _)) as H.
  intros E. now rewrite E in H.
Qed.

(** When [JSON_parse] is [None], the value had a syntax error or text
    follows it. *)
Lemma JSON_parse_None (text : string) :
  JSON_parse text = None <->
  parse_value (S (2 * String.length text)) text = SyntaxError \/
  exists v rest,
    parse_value (S (2 * String.length text)) text = Parsed v rest /\
    skip_ws rest <> "".
Proof.
  unfold JSON_parse. pose proof (JSON_parse_fuel text) as Hfuel.
  destruct (parse_value (S (2 * String.length text)) text) as [v rest| |];
    [| |congruence].
  - split.
    + intros H. right. exists v, rest. split; [reflexivity|].
      destruct (skip_ws rest); [discriminate | discriminate].
    + intros [H | (v' & rest' & H & Hrest)]; [discriminate|].
      inversion H; subst. destruct (skip_ws rest'); [congruence | reflexivity].
  - split; [now left | reflexivity].
Qed.

End Fuel.

(* ===================================================================== *)
(** * The entries that survive, and the warnings                          *)
(* ===================================================================== *)

Section Survivors.

Variable objectConfig : PropTypeConfig.

Lemma asPathToProp_truthy (v : JSON) (path : PathToProp) :
  asPathToProp v = Some path -> truthy v = true.
Proof. destruct v; cbn; congruence. Qed.

(** One turn of the loop: for a key for which the declared types hold,
    the track of the entry, if it is valid, is pushed and the diagnostic
    of the key, if it has one, is logged; for another key the loop ends
    without a result. *)
Lemma validEntries_cons (key : string) (id : SequenceTrackId)
  (rest : TrackIdByPropPath) (arrayOfIds : list Track) (log : list string) :
  validEntries objectConfig ((key, id) :: rest) arrayOfIds log
  = if typedKey key
    then validEntries objectConfig rest
           (arrayOfIds ++ option_list (surviving objectConfig (key, id)))
           (log ++ diagnostic key)
    else (None, log).
Proof.
  unfold surviving, decode, diagnostic, typedKey. cbn [validEntries fst snd].
  unfold mbind at 1, Log_bind, parsePathToProp.
  destruct (JSON_parse key) as [value|] eqn:Hparse.
  - cbn. rewrite (app_nil_r log).
    destruct (asPathToProp value) as [path|] eqn:Hpath; cbn.
    + rewrite (asPathToProp_truthy _ _ Hpath). cbn.
      destruct (getPropConfigByPath objectConfig path) as [conf|]; cbn;
        [destruct (isPropConfSequencable conf); cbn|];
        now rewrite ?app_nil_r.
    + destruct (truthy value); cbn; now rewrite ?app_nil_r.
  - cbn. now rewrite app_nil_r.
Qed.

Lemma validEntries_spec (_entries : TrackIdByPropPath) :
  forall (arrayOfIds : list Track) (log : list string),
    typedKeys _entries = true ->
    validEntries objectConfig _entries arrayOfIds log
    = (Some (arrayOfIds ++ omap (surviving objectConfig) _entries),
       log ++ flat_map (fun entry => diagnostic (fst entry)) _entries).
Proof.
  induction _entries as [|[key id] rest IH]; intros arrayOfIds log Htyped.
  - cbn. now rewrite !app_nil_r.
  - cbn [typedKeys forallb fst] in Htyped.
    apply andb_true_iff in Htyped as [Hkey Hrest].
    rewrite validEntries_cons, Hkey, IH by exact Hrest.
    cbn [omap list_omap flat_map fst].
    destruct (surviving objectConfig (key, id)); cbn [option_list];
      now rewrite <- !app_assoc.
Qed.

Lemma validEntries_None (_entries : TrackIdByPropPath) :
  forall (arrayOfIds : list Track) (log : list string),
    typedKeys _entries = false ->
    fst (validEntries objectConfig _entries arrayOfIds log) = None.
Proof.
  induction _entries as [|[key id] rest IH]; intros arrayOfIds log Htyped;
    [discriminate Htyped|].
  cbn [typedKeys forallb fst] in Htyped. rewrite validEntries_cons.
  destruct (typedKey key); [now apply IH | reflexivity].
Qed.

End Survivors.

(* ===================================================================== *)
(** * The ordering of a schema                                            *)
(* ===================================================================== *)

Section Ordering.

Lemma prop_named_In {A} (name : string) (props : list (string * A)) (sub : A) :
  prop_named name props = Some sub -> In (name, sub) props.
Proof.
  induction props as [|[k x] props IH]; [discriminate|]. cbn [prop_named].
  destruct (String.eqb_spec k name) as [->|_]; intros H.
  - inversion H; subst. now left.
  - right. now apply IH.
Qed.

(** A path that resolves to a sequencable leaf is one of the leaves of
    the traversal. *)
Lemma resolved_in_sequencableLeaves (path : PathToProp) :
  forall (conf leaf : PropTypeConfig) (prefix : PathToProp),
    getPropConfigByPath conf path = Some leaf ->
    isPropConfSequencable leaf = true ->
    In (prefix ++ path) (sequencableLeaves prefix conf).
Proof.
  induction path as [|seg path IH]; intros conf leaf prefix Hres Hseq.
  - destruct conf as [sequencable d f|props f]; [|discriminate].
    inversion Hres; subst. cbn in Hseq. subst. rewrite app_nil_r. now left.
  - destruct seg as [key|index]; [|discriminate].
    destruct conf as [sequencable d f|props f]; [discriminate|].
    cbn [getPropConfigByPath] in Hres.
    destruct (prop_named key props) as [sub|] eqn:Hsub; [|discriminate].
    cbn [sequencableLeaves]. apply in_flat_map.
    exists (key, sub). split; [now apply prop_named_In|]. cbn [fst snd].
    replace (prefix ++ PStr key :: path) with ((prefix ++ [PStr key]) ++ path)
      by now rewrite <- app_assoc.
    now apply (IH sub leaf).
Qed.

Lemma assignOrder_keeps (leaves : list PathToProp) :
  forall (next : nat) (mapping : gmap string nat) (key : string),
    is_Some (mapping !! key) ->
    is_Some (assignOrder leaves next mapping !! key).
Proof.
  induction leaves as [|path leaves IH]; intros next mapping key Hkey;
    [exact Hkey|].
  cbn [assignOrder]. apply IH.
  destruct (decide (stringify_path path = key)) as [->|Hne].
  - rewrite lookup_insert_eq. eauto.
  - now rewrite lookup_insert_ne.
Qed.

Lemma assignOrder_is_Some (leaves : list PathToProp) :
  forall (next : nat) (mapping : gmap string nat) (path : PathToProp),
    In path leaves ->
    is_Some (assignOrder leaves next mapping !! stringify_path path).
Proof.
  induction leaves as [|leaf leaves IH]; intros next mapping path Hin;
    [destruct Hin|].
  cbn [assignOrder]. destruct Hin as [->|Hin].
  - apply assignOrder_keeps. rewrite lookup_insert_eq. eauto.
  - now apply IH.
Qed.

(** An index of the ordering comes from the mapping started with, or is
    the position of a leaf with that key. *)
Lemma assignOrder_lookup (leaves : list PathToProp) :
  forall (next : nat) (mapping : gmap string nat) (key : string) (i : nat),
    assignOrder leaves next mapping !! key = Some i ->
    mapping !! key = Some i \/
    exists path, (next <= i)%nat /\ leaves !! (i - next)%nat = Some path /\
                 stringify_path path = key.
Proof.
  induction leaves as [|leaf leaves IH]; intros next mapping key i H;
    [now left|].
  cbn [assignOrder] in H. apply IH in H as [H | (path & Hle & Hat & Hkey)].
  - destruct (decide (stringify_path leaf = key)) as [Heq|Hne].
    + rewrite <- Heq, lookup_insert_eq in H. inversion H; subst.
      right. exists leaf. rewrite Nat.sub_diag. split; [lia|]. now split.
    + rewrite lookup_insert_ne in H by exact Hne. now left.
  - right. exists path. split; [lia|]. split; [|exact Hkey].
    replace (i - next)%nat with (S (i - S next)) by lia. exact Hat.
Qed.

(** Two keys with the same index are the same key. *)
Lemma getOrdering_inj (conf : PropTypeConfig) (k1 k2 : string) (i : nat) :
  getOrderingOfPropTypeConfig conf !! k1 = Some i ->
  getOrderingOfPropTypeConfig conf !! k2 = Some i ->
  k1 = k2.
Proof.
  unfold getOrderingOfPropTypeConfig. intros H1 H2.
  apply assignOrder_lookup in H1 as [H1 | (p1 & _ & Hp1 & <-)];
    [now rewrite lookup_empty in H1|].
  apply assignOrder_lookup in H2 as [H2 | (p2 & _ & Hp2 & <-)];
    [now rewrite lookup_empty in H2|].
  congruence.
Qed.

Lemma surviving_orderOf (conf : PropTypeConfig)
  (entry : string * SequenceTrackId) (track : Track) :
  surviving conf entry = Some track -> is_Some (orderOf conf track).
Proof.
  unfold surviving, orderOf, getOrderingOfPropTypeConfig. intros H.
  destruct (decode (fst entry)) as [path|]; [|discriminate]. cbn in H.
  destruct (getPropConfigByPath conf path) as [leaf|] eqn:Hres; [|discriminate].
  cbn in H. destruct (isPropConfSequencable leaf) eqn:Hseq; [|discriminate].
  inversion H; subst. cbn [pathToProp].
  apply assignOrder_is_Some.
  apply (resolved_in_sequencableLeaves path conf leaf [] Hres Hseq).
Qed.

Lemma surviving_pathToProp (conf : PropTypeConfig)
  (entry : string * SequenceTrackId) (track : Track) :
  surviving conf entry = Some track ->
  decode (fst entry) = Some (pathToProp track) /\ trackId track = snd entry.
Proof.
  unfold surviving. intros H.
  destruct (decode (fst entry)) as [path|]; [|discriminate]. cbn in H.
  destruct (getPropConfigByPath conf path) as [leaf|]; [|discriminate].
  cbn in H. destruct (isPropConfSequencable leaf); [|discriminate].
  now inversion H.
Qed.

End Ordering.

(* ===================================================================== *)
(** * The sort                                                            *)
(* ===================================================================== *)

Section Sort.

Context {A : Type}.
Variable comparefn : A -> A -> Z.

Lemma insert_Permutation (pivot : A) (sorted : list A) :
  JsArray.insert comparefn pivot sorted ≡ₚ pivot :: sorted.
Proof.
  induction sorted as [|element rest IH]; [reflexivity|].
  cbn [JsArray.insert]. destruct (comparefn pivot element <? 0); [reflexivity|].
  rewrite IH. apply Permutation_swap.
Qed.

Lemma sort_from_Permutation (array sorted : list A) :
  fold_left (fun sorted pivot => JsArray.insert comparefn pivot sorted)
            array sorted ≡ₚ sorted ++ array.
Proof.
  revert sorted. induction array as [|pivot array IH]; intros sorted.
  - now rewrite app_nil_r.
  - cbn [fold_left]. rewrite IH, insert_Permutation.
    cbn [app]. apply Permutation_middle.
Qed.

Lemma sort_Permutation (array : list A) :
  JsArray.sort comparefn array ≡ₚ array.
Proof. apply (sort_from_Permutation array []). Qed.

(** A comparator that compares by a key that may be undefined, as the
    comparator of the source does: positive when the key of the first is
    greater, negative otherwise. *)
Variable key : A -> option nat.
Hypothesis comparefn_key :
  forall a b, comparefn a b = if JsArray.gt (key a) (key b) then 1 else -1.

Lemma le_key_trans (a b c : A) :
  le_key key a b -> le_key key b c -> le_key key a c.
Proof.
  intros (i & j & Hi & Hj & Hij) (j' & k & Hj' & Hk & Hjk).
  exists i, k. repeat split; try assumption. rewrite Hj in Hj'.
  inversion Hj'; subst. lia.
Qed.

Lemma insert_sorted (pivot : A) (sorted : list A) :
  is_Some (key pivot) -> Forall (fun a => is_Some (key a)) sorted ->
  StronglySorted (le_key key) sorted ->
  StronglySorted (le_key key) (JsArray.insert comparefn pivot sorted).
Proof.
  intros [i Hi] Hkeys Hsorted.
  induction Hsorted as [|element rest Hrest IH Hhead].
  - repeat constructor.
  - apply Forall_cons in Hkeys as [[j Hj] Hkeys]. cbn [JsArray.insert].
    rewrite comparefn_key, Hi, Hj. cbn [JsArray.gt].
    destruct (j <? i)%nat eqn:Hlt; cbn.
    + apply Nat.ltb_lt in Hlt. constructor; [now apply IH|].
      rewrite insert_Permutation. constructor; [|exact Hhead].
      exists j, i. repeat split; try assumption. lia.
    + apply Nat.ltb_ge in Hlt.
      assert (Hle : le_key key pivot element) by now exists i, j.
      constructor; [now constructor|]. constructor; [exact Hle|].
      eapply Forall_impl; [exact Hhead|].
      intros c Hc. now apply (le_key_trans pivot element c).
Qed.

Lemma sort_from_sorted (array sorted : list A) :
  Forall (fun a => is_Some (key a)) array ->
  Forall (fun a => is_Some (key a)) sorted ->
  StronglySorted (le_key key) sorted ->
  StronglySorted (le_key key)
    (fold_left (fun sorted pivot => JsArray.insert comparefn pivot sorted)
               array sorted).
Proof.
  revert sorted. induction array as [|pivot array IH];
    intros sorted Harray Hkeys Hsorted; [exact Hsorted|].
  apply Forall_cons in Harray as [Hpivot Harray]. cbn [fold_left].
  apply IH; [exact Harray | | now apply insert_sorted].
  rewrite insert_Permutation. now constructor.
Qed.

Lemma sort_sorted (array : list A) :
  Forall (fun a => is_Some (key a)) array ->
  StronglySorted (le_key key) (JsArray.sort comparefn array).
Proof.
  intros Harray. apply sort_from_sorted; [exact Harray | constructor..].
Qed.

End Sort.

(* ===================================================================== *)
(** * The array of valid sequence tracks                                  *)
(* ===================================================================== *)

Section ValidTracks.

Variable objectConfig : PropTypeConfig.

Lemma comparator_key (a b : Track) :
  comparator objectConfig a b
  = if JsArray.gt (orderOf objectConfig a) (orderOf objectConfig b)
    then 1 else -1.
Proof. reflexivity. Qed.

(** The prism body, for keys for which the declared types hold, is the
    sort of the surviving entries, and logs the diagnostics of the keys
    in the order of the entries. *)
Lemma arrayOfValidSequenceTracks_spec (raw : TrackIdByPropPath)
  (log : list string) :
  typedKeys raw = true ->
  arrayOfValidSequenceTracks objectConfig (Some raw) log
  = (Some (JsArray.sort (comparator objectConfig)
             (omap (surviving objectConfig) raw)),
     log ++ flat_map (fun entry => diagnostic (fst entry)) raw).
Proof.
  intros Htyped. unfold arrayOfValidSequenceTracks, mbind, Log_bind.
  rewrite validEntries_spec by exact Htyped. cbn [app].
  fold (comparator objectConfig).
  destruct (JsArray.sort (comparator objectConfig)
              (omap (surviving objectConfig) raw));
    reflexivity.
Qed.

Lemma arrayOfValidSequenceTracks_None (raw : TrackIdByPropPath)
  (log : list string) :
  typedKeys raw = false ->
  fst (arrayOfValidSequenceTracks objectConfig (Some raw) log) = None.
Proof.
  intros Htyped. unfold arrayOfValidSequenceTracks, mbind, Log_bind.
  pose proof (validEntries_None objectConfig raw [] log Htyped) as Hnone.
  destruct (validEntries objectConfig raw [] log) as [pushed log'].
  cbn [fst] in Hnone. now rewrite Hnone.
Qed.

(** A call that returns an array was given keys for which the declared
    types hold. *)
Lemma arrayOfValidSequenceTracks_Some (raw : TrackIdByPropPath)
  (log : list string) (arr : list Track) :
  fst (arrayOfValidSequenceTracks objectConfig (Some raw) log) = Some arr ->
  typedKeys raw = true /\
  arr = JsArray.sort (comparator objectConfig)
          (omap (surviving objectConfig) raw) /\
  snd (arrayOfValidSequenceTracks objectConfig (Some raw) log)
  = log ++ flat_map (fun entry => diagnostic (fst entry)) raw.
Proof.
  intros Hsome. destruct (typedKeys raw) eqn:Htyped.
  - rewrite arrayOfValidSequenceTracks_spec in Hsome |- * by exact Htyped.
    cbn [fst snd] in Hsome |- *. split; [reflexivity|].
    split; [congruence | reflexivity].
  - rewrite arrayOfValidSequenceTracks_None in Hsome by exact Htyped.
    discriminate Hsome.
Qed.

Lemma survivors_ordered (raw : TrackIdByPropPath) :
  Forall (fun track => is_Some (orderOf objectConfig track))
         (omap (surviving objectConfig) raw).
Proof.
  apply Forall_forall. intros track Hin.
  apply list_elem_of_omap in Hin as (entry & _ & Hentry).
  now apply (surviving_orderOf objectConfig entry).
Qed.

Lemma survivors_sorted (raw : TrackIdByPropPath) :
  StronglySorted (le_key (orderOf objectConfig))
    (JsArray.sort (comparator objectConfig)
       (omap (surviving objectConfig) raw)).
Proof.
  apply sort_sorted; [exact comparator_key | apply survivors_ordered].
Qed.

Lemma survivors_paths_sublist (raw : TrackIdByPropPath) :
  pathToProp <$> omap (surviving objectConfig) raw
    `sublist_of` decodedPaths raw.
Proof.
  unfold decodedPaths. induction raw as [|entry raw IH]; [constructor|].
  cbn [omap list_omap].
  destruct (surviving objectConfig entry) as [track|] eqn:Hentry.
  - apply surviving_pathToProp in Hentry as [-> _]. cbn [fmap list_fmap].
    now apply sublist_skip.
  - destruct (decode (fst entry)); [now apply sublist_cons | exact IH].
Qed.

(** No path is valid twice when no two keys decode to the same path, as
    when every key is the serialization of its path. *)
Lemma validPaths_NoDup (raw : TrackIdByPropPath) :
  NoDup (decodedPaths raw) -> NoDup (validPaths objectConfig raw).
Proof.
  intros Hnd. eapply sublist_NoDup; [exact Hnd | apply survivors_paths_sublist].
Qed.

Lemma NoDup_fmap_eq {A B} (f : A -> B) (l : list A) (x y : A) :
  NoDup (f <$> l) -> x ∈ l -> y ∈ l -> f x = f y -> x = y.
Proof.
  induction l as [|a l IH]; intros Hnd Hx Hy Heq; [now inv Hx|].
  cbn [fmap list_fmap] in Hnd. apply NoDup_cons in Hnd as [Ha Hnd].
  inv Hx; inv Hy; try reflexivity.
  - destruct Ha. rewrite Heq. now apply list_elem_of_fmap_2.
  - destruct Ha. rewrite <- Heq. now apply list_elem_of_fmap_2.
  - now apply IH.
Qed.

(** Two surviving tracks with the same index are the same track when no
    path is the path of two valid entries. *)
Lemma survivors_order_inj (raw : TrackIdByPropPath) (a b : Track) (i : nat) :
  NoDup (validPaths objectConfig raw) ->
  a ∈ omap (surviving objectConfig) raw ->
  b ∈ omap (surviving objectConfig) raw ->
  orderOf objectConfig a = Some i -> orderOf objectConfig b = Some i ->
  a = b.
Proof.
  intros Hnd Ha Hb Hia Hib.
  apply (NoDup_fmap_eq pathToProp (omap (surviving objectConfig) raw));
    try assumption.
  apply stringify_path_inj.
    now apply (getOrdering_inj objectConfig _ _ i).
Qed.

Lemma survivors_sort_stable (raw raw' : TrackIdByPropPath) :
  NoDup (validPaths objectConfig raw) -> raw ≡ₚ raw' ->
  JsArray.sort (comparator objectConfig) (omap (surviving objectConfig) raw')
  = JsArray.sort (comparator objectConfig) (omap (surviving objectConfig) raw).
Proof.
  intros Hnd Hperm.
  apply (StronglySorted_unique_strong (le_key (orderOf objectConfig)));
    try apply survivors_sorted.
  - intros a b Ha Hb (i & j & Hi & Hj & Hij) (j' & i' & Hj' & Hi' & Hji).
    rewrite sort_Permutation in Ha, Hb. rewrite <- Hperm in Ha.
    assert (i = j) as -> by (rewrite Hi in Hi'; rewrite Hj in Hj';
                             inversion Hi'; inversion Hj'; lia).
    now apply (survivors_order_inj raw a b j).
  - now rewrite !sort_Permutation, Hperm.
Qed.

(** When no path is valid twice the result does not depend on the
    algorithm of the sort: every arrangement of the surviving entries
    that is ascending in the ordering of the schema is the result. *)
Lemma sorted_survivors_unique (raw : TrackIdByPropPath)
  (arranged : list Track) :
  NoDup (validPaths objectConfig raw) ->
  arranged ≡ₚ omap (surviving objectConfig) raw ->
  StronglySorted (le_key (orderOf objectConfig)) arranged ->
  arranged
  = JsArray.sort (comparator objectConfig) (omap (surviving objectConfig) raw).
Proof.
  intros Hnd Hperm Hsorted.
  apply (StronglySorted_unique_strong (le_key (orderOf objectConfig)));
    [| exact Hsorted | apply survivors_sorted
     | now rewrite sort_Permutation].
  intros a b Ha Hb (i & j & Hi & Hj & Hij) (j' & i' & Hj' & Hi' & Hji).
  rewrite Hperm in Ha. rewrite sort_Permutation in Hb.
  assert (i = j) as -> by (rewrite Hi in Hi'; rewrite Hj in Hj';
                           inversion Hi'; inversion Hj'; lia).
  now apply (survivors_order_inj raw a b j).
Qed.

End ValidTracks.

(* ===================================================================== *)
(** * The tree of track ids                                               *)
(* ===================================================================== *)

Section Tree.

Lemma comparable_prefix (p q : list string) :
  comparable p q = true <-> p `prefix_of` q \/ q `prefix_of` p.
Proof.
  revert q. induction p as [|a p IH]; intros q.
  - split; [intros _; left; apply prefix_nil | reflexivity].
  - destruct q as [|b q].
    + split; [intros _; right; apply prefix_nil | reflexivity].
    + cbn [comparable]. rewrite andb_true_iff, IH, String.eqb_eq.
      split.
      * intros [-> [H|H]]; [left | right]; now apply prefix_cons.
      * intros [H|H].
        -- split; [now apply prefix_cons_inv_1 in H|].
           left. now apply prefix_cons_inv_2 in H.
        -- split; [now apply prefix_cons_inv_1 in H|].
           right. now apply prefix_cons_inv_2 in H.
Qed.

Lemma comparable_sym (p q : list string) :
  comparable p q = comparable q p.
Proof.
  revert q. induction p as [|a p IH]; intros [|b q]; try reflexivity.
  cbn [comparable]. now rewrite IH, String.eqb_sym.
Qed.

Lemma prop_named_obj_set_eq {A} (props : list (string * A)) (k : string)
  (v : A) :
  prop_named k (obj_set props k v) = Some v.
Proof.
  induction props as [|[k' v'] props IH]; cbn [obj_set prop_named].
  - now rewrite String.eqb_refl.
  - destruct (String.eqb k' k) eqn:E; cbn [prop_named]; rewrite E;
      [reflexivity | exact IH].
Qed.

Lemma prop_named_obj_set_ne {A} (props : list (string * A)) (k k' : string)
  (v : A) :
  k <> k' -> prop_named k' (obj_set props k v) = prop_named k' props.
Proof.
  intros Hne. induction props as [|[k0 v0] props IH]; cbn [obj_set prop_named].
  - now apply String.eqb_neq in Hne as ->.
  - destruct (String.eqb_spec k0 k) as [->|Hk0]; cbn [prop_named].
    + now apply String.eqb_neq in Hne as ->.
    + now rewrite IH.
Qed.

(** What [baseSet] returns for a path of one key or more. *)
Lemma baseSet_inv (isArray : bool) (props props' : list (string * TrackIdTree))
  (seg : PathSegment) (rest : PathToProp) (value : TrackIdTree) :
  baseSet isArray props (seg :: rest) value = Some props' ->
  if reserved (toKey seg) then props' = props else
  match rest with
  | [] => props' = obj_set props (toKey seg) value
  | next :: _ =>
      exists below nested nested',
        baseSet below nested rest value = Some nested' /\
        props' = obj_set props (toKey seg) (TObj below nested') /\
        (prop_named (toKey seg) props = Some (TObj below nested) \/
         nested = [] /\
         forall a n, prop_named (toKey seg) props <> Some (TObj a n))
  end.
Proof.
  cbn [baseSet]. destruct (reserved (toKey seg)); [now intros [= <-]|].
  destruct rest as [|next rest].
  - destruct (isArray && _); [discriminate | now intros [= <-]].
  - destruct (prop_named (toKey seg) props) as [[id|below nested]|] eqn:Hsub.
    + destruct (baseSet (isIndex next) [] (next :: rest) value)
        as [nested'|] eqn:Hnested; [|discriminate].
      cbn. intros [= <-]. exists (isIndex next), [], nested'.
      split; [exact Hnested|]. split; [reflexivity|]. right.
      split; [reflexivity | discriminate].
    + destruct (baseSet below nested (next :: rest) value)
        as [nested'|] eqn:Hnested; [|discriminate].
      cbn. intros [= <-]. exists below, nested, nested'.
      split; [exact Hnested|]. split; [reflexivity|]. now left.
    + destruct (mayInherit isArray seg); [discriminate|].
      destruct (baseSet (isIndex next) [] (next :: rest) value)
        as [nested'|] eqn:Hnested; [|discriminate].
      cbn. intros [= <-]. exists (isIndex next), [], nested'.
      split; [exact Hnested|]. split; [reflexivity|]. right.
      split; [reflexivity | discriminate].
Qed.

(** After [set], the value is at its path. *)
Lemma reach_baseSet_same (path : PathToProp) :
  forall (props props' : list (string * TrackIdTree)) (isArray : bool)
         (value : TrackIdTree),
    path <> [] -> assignable path = true ->
    baseSet isArray props path value = Some props' ->
    reach (TObj isArray props') path = Some value.
Proof.
  induction path as [|seg path IH]; intros props props' isArray value Hne Hok H;
    [congruence|].
  cbn [assignable forallb] in Hok. apply andb_true_iff in Hok as [Hseg Hok].
  apply negb_true_iff in Hseg. apply baseSet_inv in H. rewrite Hseg in H.
  cbn [reach]. destruct path as [|next path].
  - subst props'. now rewrite prop_named_obj_set_eq.
  - destruct H as (below & nested & nested' & Hnested & -> & _).
    rewrite prop_named_obj_set_eq. now apply (IH nested).
Qed.

(** [set] leaves what is at a disjoint path as it was. *)
Lemma reach_baseSet_other (q : PathToProp) :
  forall (props props' : list (string * TrackIdTree)) (isArray : bool)
         (value : TrackIdTree) (p : PathToProp),
    disjoint p q ->
    baseSet isArray props q value = Some props' ->
    reach (TObj isArray props') p = reach (TObj isArray props) p.
Proof.
  unfold disjoint.
  induction q as [|seg q IH]; intros props props' isArray value p Hdis H;
    [now injection H as <-|].
  apply baseSet_inv in H.
  destruct (reserved (toKey seg)); [now subst props'|].
  destruct p as [|pseg p]; [discriminate Hdis|].
  cbn [fmap list_fmap comparable] in Hdis. cbn [reach].
  destruct (String.eqb_spec (toKey pseg) (toKey seg)) as [Heq|Hne].
  - cbn [andb] in Hdis. rewrite Heq.
    destruct q as [|next q].
    { destruct p; discriminate Hdis. }
    assert (Hp : exists s p', p = s :: p').
    { destruct p as [|s p']; [discriminate Hdis | eauto]. }
    destruct Hp as (s & p' & ->).
    destruct H as (below & nested & nested' & Hnested & -> & Hwas).
    rewrite prop_named_obj_set_eq.
    rewrite (IH nested nested' below value (s :: p') Hdis Hnested).
    destruct Hwas as [-> | [-> Hnone]]; [reflexivity|].
    cbn [reach prop_named].
    destruct (prop_named (toKey seg) props) as [[id|a n]|];
      [reflexivity | now destruct (Hnone a n) | reflexivity].
  - assert (Hset : forall v,
      prop_named (toKey pseg) (obj_set props (toKey seg) v)
      = prop_named (toKey pseg) props).
    { intros v. apply prop_named_obj_set_ne. congruence. }
    destruct q as [|next q]; [subst props'; now rewrite Hset|].
    destruct H as (below & nested & nested' & _ & -> & _).
    now rewrite Hset.
Qed.

Lemma set_TObj (isArray : bool) (props : list (string * TrackIdTree))
  (path : PathToProp) (value after : TrackIdTree) :
  set (TObj isArray props) path value = Some after ->
  exists props',
    after = TObj isArray props' /\
    baseSet isArray props path value = Some props'.
Proof.
  cbn [set]. destruct (baseSet isArray props path value) as [props'|];
    [|discriminate].
  cbn. intros [= <-]. now exists props'.
Qed.

Lemma reach_setTracks_other (arr : list Track) :
  forall (isArray : bool) (props : list (string * TrackIdTree))
         (p : PathToProp) (tree : TrackIdTree),
    Forall (fun track => disjoint p (pathToProp track)) arr ->
    setTracks arr (TObj isArray props) = Some tree ->
    reach tree p = reach (TObj isArray props) p.
Proof.
  induction arr as [|track arr IH]; intros isArray props p tree Hdis H;
    [now injection H as <-|].
  apply Forall_cons in Hdis as [Htrack Hdis]. cbn [setTracks] in H.
  destruct (set (TObj isArray props) (pathToProp track) (TId (trackId track)))
    as [after|] eqn:Hset; [|discriminate H].
  cbn in H. apply set_TObj in Hset as (props' & -> & Hprops').
  rewrite (IH isArray props' p tree Hdis H).
  now apply (reach_baseSet_other (pathToProp track) props props' isArray
               (TId (trackId track))).
Qed.

(** Every track of an array of pairwise disjoint, assignable paths is in
    the tree at its path. *)
Lemma reach_setTracks_all (arr : list Track) :
  ForallOrdPairs (fun a b => disjoint (pathToProp a) (pathToProp b)) arr ->
  forall (isArray : bool) (props : list (string * TrackIdTree)) (track : Track)
         (tree : TrackIdTree),
    Forall (fun t => assignable (pathToProp t) = true) arr ->
    track ∈ arr -> pathToProp track <> [] ->
    setTracks arr (TObj isArray props) = Some tree ->
    reach tree (pathToProp track) = Some (TId (trackId track)).
Proof.
  induction 1 as [|head arr Hhead Hrest IH];
    intros isArray props track tree Hok Hin Hne H; [now inv Hin|].
  apply Forall_cons in Hok as [Hassign Hok]. cbn [setTracks] in H.
  destruct (set (TObj isArray props) (pathToProp head) (TId (trackId head)))
    as [after|] eqn:Hset; [|discriminate H].
  cbn in H. apply set_TObj in Hset as (props' & -> & Hprops'). inv Hin.
  - rewrite (reach_setTracks_other arr isArray props' (pathToProp head) tree).
    + now apply (reach_baseSet_same (pathToProp head) props props' isArray).
    + rewrite Forall_forall in Hhead. apply Forall_forall.
      intros t Ht. now apply Hhead.
    + exact H.
  - now apply (IH isArray props').
Qed.

(** Two different paths that both resolve in a schema are disjoint: a
    path resolves only when it ends on a leaf. *)
Lemma resolved_disjoint (p : PathToProp) :
  forall (conf : PropTypeConfig) (q : PathToProp),
    is_Some (getPropConfigByPath conf p) ->
    is_Some (getPropConfigByPath conf q) ->
    p <> q -> disjoint p q.
Proof.
  unfold disjoint.
  induction p as [|seg p IH]; intros conf q [leaf Hp] [leaf' Hq] Hne.
  - destruct conf; [|discriminate Hp].
    destruct q as [|[key|index] q]; [congruence | discriminate..].
  - destruct seg as [key|index]; [|discriminate Hp].
    destruct conf as [sq d f|props f]; [discriminate Hp|].
    destruct q as [|[key'|index'] q]; [discriminate Hq | | discriminate Hq].
    cbn [getPropConfigByPath] in Hp, Hq.
    cbn [fmap list_fmap comparable toKey].
    destruct (String.eqb_spec key key') as [<-|Hkey]; [|reflexivity].
    destruct (prop_named key props) as [sub|]; [|discriminate Hp].
    cbn [andb]. apply (IH sub q); eauto. congruence.
Qed.

End Tree.

(* ===================================================================== *)
(** * The properties                                                      *)
(* ===================================================================== *)

(** The example of the spec, section 8: the two valid tracks come out in
    the order of the schema, and the track of the stale key is dropped. *)
Example spec_example :
  run (arrayOfValidSequenceTracks Sample.schema (Some Sample.tracks))
  = (Some [{| pathToProp := Sample.path_type; trackId := "trk1" |};
           {| pathToProp := Sample.path_x; trackId := "trk2" |}], []).
Proof. vm_compute. reflexivity. Qed.

(** The method is the prism body at the values of its two pointers. *)
Lemma getArrayOfValidSequenceTracks_body {Action : Type}
  (self : SheetObjectTemplate Action) (store : Store) :
  getArrayOfValidSequenceTracks self store
  = arrayOfValidSequenceTracks (_config self)
      (sheetState ← pointerToSheetState store (project self)
                       (address_sheetId (address self));
       sequence_tracksByObject sheetState !! objectKey (address self)).
Proof. reflexivity. Qed.

Lemma typedKeys_Permutation (raw raw' : TrackIdByPropPath) :
  raw ≡ₚ raw' -> typedKeys raw = typedKeys raw'.
Proof.
  unfold typedKeys. induction 1 as [|entry l l' _ IH|a b l|l l' l'' _ IH _ IH'];
    cbn [forallb].
  - reflexivity.
  - now rewrite IH.
  - now rewrite !andb_assoc, (andb_comm (typedKey (fst a))).
  - now rewrite IH.
Qed.


(** C1 (amended). For every schema and every raw track map for which
    getArrayOfValidSequenceTracks returns an array of tracks (each key
    that is JSON text of a truthy value is an array of strings and
    integers), the sequence returned is sorted ascending by the index of
    each path in the ordering of the schema; and when no two keys of
    valid entries of the raw track map decode to the same path, inserting
    the entries in another order does not change the sequence. *)
Theorem valid_tracks_sorted_and_stable (objectConfig : PropTypeConfig)
  (raw raw' : TrackIdByPropPath) (arr : list Track) :
  result (arrayOfValidSequenceTracks objectConfig (Some raw)) = Some arr ->
  StronglySorted (le_key (orderOf objectConfig)) arr /\
  (NoDup (validPaths objectConfig raw) -> raw ≡ₚ raw' ->
   result (arrayOfValidSequenceTracks objectConfig (Some raw')) = Some arr).
Proof.
  intros Hreturns.
  apply arrayOfValidSequenceTracks_Some in Hreturns as (Htyped & -> & _).
  split; [apply survivors_sorted|].
  intros Hnd Hperm. unfold result, run.
  rewrite arrayOfValidSequenceTracks_spec
    by now rewrite <- (typedKeys_Permutation raw raw').
  cbn [fst]. f_equal. now apply survivors_sort_stable.
Qed.

Lemma valid_tracks_sorted_and_stable_witness :
  StronglySorted (le_key (orderOf Sample.schema))
    [{| pathToProp := Sample.path_type; trackId := "trk1" |};
     {| pathToProp := Sample.path_x; trackId := "trk2" |}] /\
  result (arrayOfValidSequenceTracks Sample.schema (Some Sample.tracks_swapped))
  = Some [{| pathToProp := Sample.path_type; trackId := "trk1" |};
          {| pathToProp := Sample.path_x; trackId := "trk2" |}].
Proof.
  destruct (valid_tracks_sorted_and_stable Sample.schema Sample.tracks
              Sample.tracks_swapped
              [{| pathToProp := Sample.path_type; trackId := "trk1" |};
               {| pathToProp := Sample.path_x; trackId := "trk2" |}])
    as [Hsorted Hstable]; [vm_compute; reflexivity|].
  split; [exact Hsorted|]. apply Hstable.
  - apply (bool_decide_unpack _). vm_compute. reflexivity.
  - apply perm_swap.
Defined.

(** C1, as stated, fails: two keys that decode to the same path give two
    tracks with the same index, and the order in which they come out is
    the reverse of the order in which they were inserted. And for a key
    that is JSON text of a string, which is no path, the call returns no
    array of tracks. *)
Lemma insertion_order_shows :
  result (arrayOfValidSequenceTracks Sample.flat
            (Some [(JSON_stringify (JStr "a"), "t1")]))
  = None /\
  Sample.key_a <> Sample.key_a_spaced /\
  result (arrayOfValidSequenceTracks Sample.flat
            (Some [(Sample.key_a, "t1"); (Sample.key_a_spaced, "t2")]))
  = Some [{| pathToProp := Sample.path_a; trackId := "t2" |};
          {| pathToProp := Sample.path_a; trackId := "t1" |}] /\
  result (arrayOfValidSequenceTracks Sample.flat
            (Some [(Sample.key_a_spaced, "t2"); (Sample.key_a, "t1")]))
  = Some [{| pathToProp := Sample.path_a; trackId := "t1" |};
          {| pathToProp := Sample.path_a; trackId := "t2" |}].
Proof.
  split; [|split; [|split]]; vm_compute;
    [reflexivity | discriminate | reflexivity..].
Qed.

(** C2. The code does not do what the claim says for a key that is JSON
    text of another shape than an array of strings and integers. Decoding
    the key of an empty object does not fail: parsePathToProp returns the
    object, which is not of its declared result type, and emits no
    diagnostic. The object is truthy, so the loop does not skip the
    entry: with this entry added to the track map of the spec's example,
    the call returns no array of tracks, where without the entry it
    returns the two valid tracks. *)
Theorem object_key_decodes :
  decode "{}" = None /\
  run (parsePathToProp "{}") = (Some (JObj []), []) /\
  truthy (JObj []) = true /\
  result (arrayOfValidSequenceTracks Sample.schema
            (Some (("{}", "trkY") :: Sample.tracks)))
  = None /\
  result (arrayOfValidSequenceTracks Sample.schema (Some Sample.tracks))
  = Some [{| pathToProp := Sample.path_type; trackId := "trk1" |};
          {| pathToProp := Sample.path_x; trackId := "trk2" |}].
Proof. repeat split; vm_compute; reflexivity. Qed.


(** A corrupted key in the track map of the spec's example: one
    diagnostic, and the two valid tracks as before. *)
Example corrupted_key_example :
  run (arrayOfValidSequenceTracks Sample.schema (Some Sample.tracks_corrupted))
  = (result (arrayOfValidSequenceTracks Sample.schema (Some Sample.tracks)),
     ["property " +:+ JSON_stringify (JStr "[oops") +:+
      " cannot be parsed. Skipping."]).
Proof. vm_compute. reflexivity. Qed.

Lemma surviving_resolves (objectConfig : PropTypeConfig)
  (entry : string * SequenceTrackId) (track : Track) :
  surviving objectConfig entry = Some track ->
  resolvesToSequencable objectConfig (pathToProp track) = true.
Proof.
  unfold surviving, resolvesToSequencable. intros H.
  destruct (decode (fst entry)) as [path|]; [|discriminate]. cbn in H.
  destruct (getPropConfigByPath objectConfig path) as [leaf|] eqn:Hres;
    [|discriminate].
  cbn in H. destruct (isPropConfSequencable leaf) eqn:Hseq; [|discriminate].
  inversion H; subst. cbn [pathToProp]. now rewrite Hres.
Qed.

Lemma decode_typedKey (key : string) (path : PathToProp) :
  decode key = Some path -> typedKey key = true.
Proof.
  unfold decode, typedKey.
  destruct (JSON_parse key) as [value|]; [|reflexivity]. cbn.
  intros ->. apply orb_true_r.
Qed.



Lemma gt_same (index : option nat) : JsArray.gt index index = false.
Proof. destruct index as [i|]; [apply Nat.ltb_irrefl | reflexivity]. Qed.

(** C5 (amended). The comparator of the sort is two-way: it returns 1 or
    -1, and -1 for two tracks with the same index, never zero. When no
    two keys of valid entries of the raw track map decode to the same
    path, each path is in the result at most once, and two tracks at
    different places of the result have different indices. *)
Theorem comparator_two_way (objectConfig : PropTypeConfig)
  (raw : TrackIdByPropPath) (arr : list Track) :
  (forall mapping a b,
     (compareTracks mapping a b = 1 \/ compareTracks mapping a b = -1) /\
     (mapping !! stringify_path (pathToProp a)
      = mapping !! stringify_path (pathToProp b) ->
      compareTracks mapping a b = -1)) /\
  (NoDup (validPaths objectConfig raw) ->
   result (arrayOfValidSequenceTracks objectConfig (Some raw)) = Some arr ->
   NoDup (pathToProp <$> arr) /\
   (forall i j a b,
      arr !! i = Some a -> arr !! j = Some b -> i <> j ->
      orderOf objectConfig a <> orderOf objectConfig b)).
Proof.
  split.
  - intros mapping a b. unfold compareTracks. split.
    + destruct (JsArray.gt _ _); [now left | now right].
    + intros ->. now rewrite gt_same.
  - intros Hnd Hreturns.
    apply arrayOfValidSequenceTracks_Some in Hreturns as (_ & Harr & _).
    assert (Hpaths : NoDup (pathToProp <$> arr)).
    { rewrite Harr. now rewrite sort_Permutation. }
    split; [exact Hpaths|].
    intros i j a b Ha Hb Hij Horder.
    apply NoDup_fmap_1 in Hpaths as Hout.
    apply Hij. apply (NoDup_lookup _ i j a Hout Ha).
    replace a with b; [exact Hb|]. symmetry.
    apply list_elem_of_lookup_2 in Ha, Hb.
    rewrite Harr, sort_Permutation in Ha, Hb.
    destruct (proj1 (Forall_forall _ _) (survivors_ordered objectConfig raw)
                a Ha) as [k Hk].
    apply (survivors_order_inj objectConfig raw a b k Hnd Ha Hb Hk).
    now rewrite <- Horder.
Qed.

Lemma comparator_two_way_witness :
  NoDup (pathToProp <$>
         [{| pathToProp := Sample.path_type; trackId := "trk1" |};
          {| pathToProp := Sample.path_x; trackId := "trk2" |}]) /\
  (forall i j a b,
     [{| pathToProp := Sample.path_type; trackId := "trk1" |};
      {| pathToProp := Sample.path_x; trackId := "trk2" |}] !! i = Some a ->
     [{| pathToProp := Sample.path_type; trackId := "trk1" |};
      {| pathToProp := Sample.path_x; trackId := "trk2" |}] !! j = Some b ->
     i <> j ->
     orderOf Sample.schema a <> orderOf Sample.schema b).
Proof.
  apply (proj2 (comparator_two_way Sample.schema Sample.tracks
                  [{| pathToProp := Sample.path_type; trackId := "trk1" |};
                   {| pathToProp := Sample.path_x; trackId := "trk2" |}])).
  - apply (bool_decide_unpack _). vm_compute. reflexivity.
  - vm_compute. reflexivity.
Defined.

(** C5, as stated, fails: after filtering, the path [a] is there twice,
    for two keys that decode to it, and the two tracks are compared with
    the same index; the comparator says -1 both ways. *)
Lemma equal_keys_compared :
  result (arrayOfValidSequenceTracks Sample.flat
            (Some [(Sample.key_a_spaced, "t2"); (Sample.key_a, "t1");
                   (stringify_path Sample.path_b, "t3")]))
  = Some [{| pathToProp := Sample.path_a; trackId := "t1" |};
          {| pathToProp := Sample.path_a; trackId := "t2" |}] /\
  orderOf Sample.flat {| pathToProp := Sample.path_a; trackId := "t1" |}
  = orderOf Sample.flat {| pathToProp := Sample.path_a; trackId := "t2" |} /\
  comparator Sample.flat
    {| pathToProp := Sample.path_a; trackId := "t1" |}
    {| pathToProp := Sample.path_a; trackId := "t2" |} = -1 /\
  comparator Sample.flat
    {| pathToProp := Sample.path_a; trackId := "t2" |}
    {| pathToProp := Sample.path_a; trackId := "t1" |} = -1.
Proof. repeat split; vm_compute; reflexivity. Qed.

(** C6. For an absent and for an empty raw track map the result is the
    empty sequence, and nothing is logged; the result of a call does not
    depend on what was logged before it, so a repeated call returns an
    equal sequence. *)
Theorem empty_and_repeated_calls {Action : Type}
  (self : SheetObjectTemplate Action) (store : Store)
  (objectConfig : PropTypeConfig) (raw : option TrackIdByPropPath)
  (log log' : list string) :
  arrayOfValidSequenceTracks objectConfig None log = (Some [], log) /\
  arrayOfValidSequenceTracks objectConfig (Some []) log = (Some [], log) /\
  fst (arrayOfValidSequenceTracks objectConfig raw log)
  = fst (arrayOfValidSequenceTracks objectConfig raw log') /\
  fst (getArrayOfValidSequenceTracks self store log)
  = fst (getArrayOfValidSequenceTracks self store log').
Proof.
  assert (Hsame : forall conf tracks,
    fst (arrayOfValidSequenceTracks conf tracks log)
    = fst (arrayOfValidSequenceTracks conf tracks log')).
  { intros conf [tracks|]; [|reflexivity].
    destruct (typedKeys tracks) eqn:Htyped.
    - now rewrite !arrayOfValidSequenceTracks_spec.
    - now rewrite !arrayOfValidSequenceTracks_None. }
  split; [reflexivity|]. split.
  - rewrite arrayOfValidSequenceTracks_spec by reflexivity. cbn.
    now rewrite app_nil_r.
  - split; [apply Hsame|]. rewrite getArrayOfValidSequenceTracks_body.
    apply Hsame.
Qed.

(** C7. Decoding the serialization of a path gives the path back:
    parsePathToProp returns the array of its segments, without a
    diagnostic, for every path of strings and integers. *)
Theorem decode_encode (path : PathToProp) :
  run (parsePathToProp (stringify_path path)) = (Some (json_of_path path), []) /\
  asPathToProp (json_of_path path) = Some path /\
  decode (stringify_path path) = Some path.
Proof.
  split; [|split].
  - unfold run, parsePathToProp. now rewrite JSON_parse_stringify_path.
  - apply asPathToProp_json_of_path.
  - apply decode_stringify_path.
Qed.

(** X20. The projection to a tree inserts each track under the keys of
    its path, creating the nodes on the way: when the paths of the array
    are pairwise disjoint, none of them is empty and none of their keys
    is one that lodash [set] refuses (__proto__, constructor, prototype),
    the id of every track is at its path in the tree that the loop
    builds; no insertion overwrites another. *)
Theorem tracks_reachable_in_map (arr : list Track) (track : Track)
  (tree : TrackIdTree) :
  ForallOrdPairs (fun a b => disjoint (pathToProp a) (pathToProp b)) arr ->
  Forall (fun t => assignable (pathToProp t) = true) arr ->
  track ∈ arr -> pathToProp track <> [] ->
  mapOfValidSequenceTracks arr = Some tree ->
  reach tree (pathToProp track) = Some (TId (trackId track)).
Proof.
  intros Hdis Hok Hin Hne Htree.
  apply (reach_setTracks_all arr Hdis false [] track tree Hok Hin Hne Htree).
Qed.

Lemma tracks_reachable_in_map_witness :
  reach (TObj false
           [("transform",
             TObj false [("type", TId "trk1");
                         ("position", TObj false [("x", TId "trk2")])])])
        Sample.path_x
  = Some (TId "trk2").
Proof.
  apply (tracks_reachable_in_map
           [{| pathToProp := Sample.path_type; trackId := "trk1" |};
            {| pathToProp := Sample.path_x; trackId := "trk2" |}]
           {| pathToProp := Sample.path_x; trackId := "trk2" |}).
  - repeat constructor.
  - repeat constructor.
  - apply (bool_decide_unpack _). vm_compute. reflexivity.
  - discriminate.
  - reflexivity.
Defined.

(** C4. The code does not do what the claim says for a prop named
    constructor: in a schema with the sequencable props [constructor] and
    [x], getArrayOfValidSequenceTracks returns both tracks, their paths
    are disjoint, and the tree of getMapOfValidSequenceTracks_forStudio
    has the second only: lodash [set] returns at the key [constructor]
    without assigning, the track id is not reachable at its path, and the
    tree of the valid tracks lacks a valid track. *)
Theorem reserved_key_not_in_map :
  result (arrayOfValidSequenceTracks
            (Compound [("constructor", Sample.prop true);
                       ("x", Sample.prop true)] Sample.noSanitize)
            (Some [(stringify_path [PStr "constructor"], "t1");
                   (stringify_path [PStr "x"], "t2")]))
  = Some [{| pathToProp := [PStr "constructor"]; trackId := "t1" |};
          {| pathToProp := [PStr "x"]; trackId := "t2" |}] /\
  disjoint [PStr "constructor"] [PStr "x"] /\
  mapOfValidSequenceTracks
    [{| pathToProp := [PStr "constructor"]; trackId := "t1" |};
     {| pathToProp := [PStr "x"]; trackId := "t2" |}]
  = Some (TObj false [("x", TId "t2")]) /\
  reach (TObj false [("x", TId "t2")]) [PStr "constructor"] = None.
Proof. repeat split; vm_compute; reflexivity. Qed.

(** The valid tracks of a track map in which no path is valid twice have
    pairwise disjoint paths. *)
Lemma valid_tracks_disjoint (objectConfig : PropTypeConfig)
  (raw : TrackIdByPropPath) (arr : list Track) :
  NoDup (validPaths objectConfig raw) ->
  result (arrayOfValidSequenceTracks objectConfig (Some raw)) = Some arr ->
  ForallOrdPairs (fun a b => disjoint (pathToProp a) (pathToProp b)) arr.
Proof.
  intros Hnd Hreturns.
  apply arrayOfValidSequenceTracks_Some in Hreturns as (_ & Harr & _).
  assert (Hpaths : NoDup (pathToProp <$> arr)).
  { rewrite Harr. now rewrite sort_Permutation. }
  assert (Hres : Forall
            (fun t => is_Some (getPropConfigByPath objectConfig (pathToProp t)))
            arr).
  { rewrite Harr, sort_Permutation. apply Forall_forall. intros t Ht.
    apply list_elem_of_omap in Ht as (entry & _ & Hsurv).
    apply surviving_resolves in Hsurv. unfold resolvesToSequencable in Hsurv.
    destruct (getPropConfigByPath objectConfig (pathToProp t)); [eauto|].
    discriminate. }
  clear Harr. induction arr as [|a l IH]; [constructor|].
  cbn [fmap list_fmap] in Hpaths. apply NoDup_cons in Hpaths as [Ha Hl].
  apply Forall_cons in Hres as [Hra Hrl].
  constructor; [|now apply IH].
  apply List.Forall_forall. intros b Hb. apply list_elem_of_In in Hb.
  apply (resolved_disjoint _ objectConfig); try assumption.
  - rewrite Forall_forall in Hrl. now apply Hrl.
  - intros Heq. apply Ha. rewrite Heq. now apply list_elem_of_fmap_2.
Qed.

(** getMapOfValidSequenceTracks_forStudio on the valid tracks of a
    schema that is a composite: when no path is valid twice and no key of
    a valid path is reserved, the tree has the id of every valid track at
    its path. *)
Lemma map_of_valid_tracks (props : list (string * PropTypeConfig))
  (sanitize : JSON -> JSValue) (raw : TrackIdByPropPath) (arr : list Track)
  (track : Track) :
  NoDup (validPaths (Compound props sanitize) raw) ->
  result (arrayOfValidSequenceTracks (Compound props sanitize) (Some raw))
  = Some arr ->
  Forall (fun t => assignable (pathToProp t) = true) arr ->
  track ∈ arr ->
  forall tree,
    mapOfValidSequenceTracks arr = Some tree ->
    reach tree (pathToProp track) = Some (TId (trackId track)).
Proof.
  intros Hnd Hreturns Hok Hin tree Htree.
  apply (reach_setTracks_all arr) with (isArray := false) (props := []);
    try assumption.
  - now apply (valid_tracks_disjoint (Compound props sanitize) raw).
  - intros Hempty.
    apply arrayOfValidSequenceTracks_Some in Hreturns as (_ & Harr & _).
    rewrite Harr, sort_Permutation in Hin.
    apply list_elem_of_omap in Hin as (entry & _ & Hsurv).
    apply surviving_resolves in Hsurv. rewrite Hempty in Hsurv.
    discriminate Hsurv.
Qed.

(** The tree of the method is the projection of the array of the
    method, and logs what the array logs. *)
Lemma getMapOfValidSequenceTracks_forStudio_body {Action : Type}
  (self : SheetObjectTemplate Action) (store : Store) (log : list string) :
  getMapOfValidSequenceTracks_forStudio self store log
  = (fst (getArrayOfValidSequenceTracks self store log)
       ≫= mapOfValidSequenceTracks,
     snd (getArrayOfValidSequenceTracks self store log)).
Proof.
  unfold getMapOfValidSequenceTracks_forStudio, mbind, Log_bind.
  now destruct (getArrayOfValidSequenceTracks self store log).
Qed.

(** The ordering of the schema of the spec's example, and its tree. *)
Example ordering_example :
  orderOf Sample.schema {| pathToProp := Sample.path_type; trackId := "trk1" |}
  = Some 0%nat /\
  orderOf Sample.schema {| pathToProp := Sample.path_x; trackId := "trk2" |}
  = Some 1%nat /\
  result (arrayOfValidSequenceTracks Sample.schema (Some Sample.tracks))
    ≫= mapOfValidSequenceTracks
  = Some (TObj false
            [("transform",
              TObj false [("type", TId "trk1");
                          ("position", TObj false [("x", TId "trk2")])])]).
Proof. repeat split; vm_compute; reflexivity. Qed.

(** The method, when it returns, is the prism body at the values of its
    two pointers. *)
Lemma getStaticValues_body {Action : Type} (self : SheetObjectTemplate Action)
  (store : Store) (values : JSON) :
  getStaticValues self store = Some values ->
  values
  = staticValues (_config self)
      (sheetState ← pointerToSheetState store
                       (sheetTemplate_project (sheetTemplate self))
                       (address_sheetId (address self));
       staticOverrides_byObject sheetState !! objectKey (address self)).
Proof.
  unfold getStaticValues.
  destruct (_ && _ && _); [discriminate | now intros [= <-]].
Qed.

(** C8 (amended). getStaticValues gives the raw overrides to the hook of
    the schema and returns what the hook returns when that is truthy.
    When the raw overrides are absent the hook is given an empty tree,
    and the result is what it is for an empty tree of overrides; when the
    hook returns nothing or a falsy value the result is an empty tree. *)
Theorem static_values_sanitized (config : PropTypeConfig)
  (json sanitized : JSON) :
  staticValues config None = staticValues config (Some (JObj [])) /\
  staticValues config (Some JNull) = staticValues config (Some (JObj [])) /\
  (json <> JNull ->
   deserializeAndSanitize config json = Some sanitized ->
   truthy sanitized = true ->
   staticValues config (Some json) = sanitized) /\
  (json <> JNull ->
   deserializeAndSanitize config json = Some sanitized ->
   truthy sanitized = false ->
   staticValues config (Some json) = JObj []) /\
  (json <> JNull ->
   deserializeAndSanitize config json = None ->
   staticValues config (Some json) = JObj []).
Proof.
  unfold staticValues.
  assert (Hjson : json <> JNull -> nullish_or (Some json) (JObj []) = json).
  { destruct json; intros; cbn; congruence. }
  repeat split; try reflexivity.
  - intros Hne Hhook Htruthy. rewrite (Hjson Hne), Hhook. cbn.
    now rewrite Htruthy.
  - intros Hne Hhook Hfalsy. rewrite (Hjson Hne), Hhook. cbn.
    now rewrite Hfalsy.
  - intros Hne Hhook. now rewrite (Hjson Hne), Hhook.
Qed.

Lemma static_values_sanitized_witness :
  staticValues Sample.lenient (Some (JObj [("a", JNum 1)]))
  = JObj [("a", JNum 1)] /\
  staticValues Sample.lenient (Some (JNum 0)) = JObj [] /\
  staticValues Sample.schema (Some (JObj [("a", JNum 1)])) = JObj [].
Proof.
  split; [|split].
  - apply (proj1 (proj2 (proj2 (static_values_sanitized Sample.lenient
             (JObj [("a", JNum 1)]) (JObj [("a", JNum 1)])))));
      [discriminate | reflexivity | reflexivity].
  - apply (proj1 (proj2 (proj2 (proj2 (static_values_sanitized Sample.lenient
             (JNum 0) (JNum 0))))));
      [discriminate | reflexivity | reflexivity].
  - apply (proj2 (proj2 (proj2 (proj2 (static_values_sanitized Sample.schema
             (JObj [("a", JNum 1)]) JNull)))));
      [discriminate | reflexivity].
Defined.

(** C8, as stated, fails: with absent overrides the hook is called on an
    empty tree and what it returns is the result, which is not an empty
    tree for a hook that fills one in. *)
Lemma absent_overrides_sanitized :
  staticValues Sample.filling None = JObj [("filled", JBool true)] /\
  staticValues Sample.filling None <> JObj [].
Proof. split; [reflexivity | discriminate]. Qed.

Section DefaultsTree.

Lemma prop_named_first {A} (key : string) (members : list (string * A))
  (sub : A) :
  prop_named key members = Some sub <->
  exists before after,
    members = before ++ (key, sub) :: after /\ key ∉ (fst <$> before).
Proof.
  split.
  - induction members as [|[k v] members IH]; [discriminate|].
    cbn [prop_named]. destruct (String.eqb_spec k key) as [->|Hne].
    + intros [= ->]. exists [], members. split; [reflexivity|].
      apply not_elem_of_nil.
    + intros H. destruct (IH H) as (before & after & -> & Hfresh).
      exists ((k, v) :: before), after. split; [reflexivity|].
      cbn [fmap list_fmap fst]. apply not_elem_of_cons. split; congruence.
  - intros (before & after & -> & Hfresh).
    induction before as [|[k v] before IH]; cbn [app prop_named].
    + now rewrite String.eqb_refl.
    + cbn [fmap list_fmap fst] in Hfresh.
      apply not_elem_of_cons in Hfresh as [Hne Hfresh].
      destruct (String.eqb_spec k key) as [->|_]; [congruence|].
      now apply IH.
Qed.

Lemma parse_digits_inv (s : string) :
  forall d rest,
    parse_digits s = (d, rest) -> s = NilEmpty.string_of_uint d +:+ rest.
Proof.
  induction s as [|c s IH]; intros d rest; cbn [parse_digits].
  - now intros [= <- <-].
  - destruct (digit_of c) as [f|] eqn:Hc; [|now intros [= <- <-]].
    destruct (parse_digits s) as [u r]. intros [= <- <-].
    rewrite (IH u r eq_refl).
    destruct c as [[] [] [] [] [] [] [] []]; try discriminate Hc;
      injection Hc as <-; reflexivity.
Qed.

Lemma valid_int_normal (d : uint) : valid_int d = true -> unorm d = d.
Proof. destruct d as [|[] | | | | | | | | |]; cbn; congruence. Qed.

Lemma app_empty_r (s : string) : s +:+ "" = s.
Proof.
  induction s as [|c s IH]; [reflexivity|].
  change (String c s +:+ "") with (String c (s +:+ "")). now rewrite IH.
Qed.

(** The keys that name an element of an array are the decimal numerals
    of the indices. *)
Lemma index_of_key_numeral (key : string) (i : nat) :
  index_of_key key = Some i <-> key = index_key i.
Proof.
  unfold index_of_key, index_key. split.
  - destruct (parse_digits key) as [d rest] eqn:Hdigits.
    destruct rest; [|discriminate].
    destruct (valid_int d) eqn:Hvalid; [|discriminate]. intros [= <-].
    apply parse_digits_inv in Hdigits. rewrite app_empty_r in Hdigits.
    now rewrite DecimalNat.Unsigned.to_of, (valid_int_normal d Hvalid).
  - intros ->.
    pose proof (parse_digits_string_of_uint (Nat.to_uint i) "" eq_refl)
      as Hdigits.
    rewrite app_empty_r in Hdigits. rewrite Hdigits.
    replace (valid_int (Nat.to_uint i)) with true.
    + now rewrite DecimalNat.Unsigned.of_to.
    + rewrite <- (DecimalNat.Unsigned.of_to i) at 1.
      rewrite DecimalNat.Unsigned.to_of. symmetry. apply valid_int_unorm.
Qed.

(** [getDeep] finds what is stored, and nothing else. *)
Lemma getDeep_stored_at (path : PathToProp) :
  forall (v stored : JSON),
    getDeep v path = Some stored <-> stored_at v (toKey <$> path) stored.
Proof.
  induction path as [|seg path IH]; intros v stored;
    cbn [getDeep fmap list_fmap].
  - split; [intros [= ->]; constructor | now inversion 1].
  - split.
    + destruct v as [| | | | |elems|members]; cbn [property]; try discriminate.
      * destruct (index_of_key (toKey seg)) as [i|] eqn:Hindex;
          [|discriminate].
        apply index_of_key_numeral in Hindex as ->.
        destruct (nth_error elems i) as [sub|] eqn:Hsub; [|discriminate].
        intros H. apply IH in H. now apply (stored_element elems i sub).
      * destruct (prop_named (toKey seg) members) as [sub|] eqn:Hsub;
          [|discriminate].
        apply prop_named_first in Hsub as (before & after & -> & Hfresh).
        intros H. apply IH in H. now apply stored_member.
    + inversion 1 as [| before after key sub ? rest Hfresh Hrest
                      | elems i sub ? rest Hsub Hrest]; subst; cbn [property].
      * rewrite (proj2 (prop_named_first (toKey seg)
                          (before ++ (toKey seg, sub) :: after) sub))
          by eauto.
        now apply IH.
      * rewrite (proj2 (index_of_key_numeral _ i)) by congruence.
        rewrite Hsub. now apply IH.
Qed.

(** The default of a leaf of the schema is stored in the defaults under
    the path of the leaf. *)
Lemma defaults_of_leaf (path : PathToProp) :
  forall (conf leaf : PropTypeConfig),
    getPropConfigByPath conf path = Some leaf ->
    exists defaults,
      defaultsOf conf = Some defaults /\
      getDeep defaults path = defaultsOf leaf.
Proof.
  induction path as [|[key|index] path IH]; intros conf leaf;
    cbn [getPropConfigByPath]; [| |discriminate].
  - destruct conf as [sequencable default hook|]; [|discriminate].
    intros [= <-]. now exists default.
  - destruct conf as [|props hook]; [discriminate|].
    destruct (prop_named key props) as [sub|] eqn:Hsub; [|discriminate].
    intros Hleaf. destruct (IH sub leaf Hleaf) as (below & Hbelow & Hdeep).
    assert (Hmember :
      prop_named key
        (omap (fun kv => match defaultsOf (snd kv) with
                         | Some d => Some (fst kv, d)
                         | None => None
                         end) props) = Some below).
    { clear Hleaf IH. induction props as [|[k v] props IHprops];
        [discriminate|].
      cbn [prop_named] in Hsub. cbn [omap list_omap fst snd].
      destruct (String.eqb_spec k key) as [->|Hne].
      - injection Hsub as ->. rewrite Hbelow. cbn [prop_named].
        now rewrite String.eqb_refl.
      - destruct (defaultsOf v); [|now apply IHprops].
        cbn [prop_named]. destruct (String.eqb_spec k key); [congruence|].
        now apply IHprops. }
    cbn [defaultsOf].
    destruct (omap _ props) as [|member members] eqn:Hmembers;
      [discriminate Hmember|].
    exists (JObj (member :: members)). split; [reflexivity|].
    cbn [getDeep toKey property]. now rewrite Hmember.
Qed.

End DefaultsTree.

(** C9. getDefaultsAtPointer looks the path of the pointer up in the
    default values: it returns the value stored in the tree under the
    keys of the path when one is stored there, and undefined, never an
    error, when none is. For a path that leads to a leaf of the schema
    the value returned is the default of that leaf. *)
Theorem defaults_at_pointer {Action : Type} (self : SheetObjectTemplate Action)
  (pointer : PathToProp) :
  (forall stored,
     getDefaultsAtPointer self pointer = Some stored <->
     stored_at (getDefaultValues self) (toKey <$> pointer) stored) /\
  (getDefaultsAtPointer self pointer = None <->
   forall stored,
     ~ stored_at (getDefaultValues self) (toKey <$> pointer) stored) /\
  (forall sequencable default hook,
     getPropConfigByPath (_config self) pointer
     = Some (Leaf sequencable default hook) ->
     getDefaultsAtPointer self pointer = Some default).
Proof.
  unfold getDefaultsAtPointer. split; [|split].
  - intros stored. apply getDeep_stored_at.
  - split.
    + intros Hnone stored Hstored. apply getDeep_stored_at in Hstored.
      congruence.
    + intros Hnone.
      destruct (getDeep (getDefaultValues self) pointer) as [stored|] eqn:Hdeep;
        [|reflexivity].
      apply getDeep_stored_at in Hdeep. now destruct (Hnone stored).
  - intros sequencable default hook Hleaf.
    destruct (defaults_of_leaf pointer _ _ Hleaf) as (defaults & Hdefaults & Hdeep).
    unfold getDefaultValues, getPropDefaultsOfSheetObject.
    now rewrite Hdefaults, Hdeep.
Qed.

(** The defaults of the schema of the spec's example, and two lookups. *)
Example defaults_example :
  getPropDefaultsOfSheetObject Sample.schema
  = JObj [("transform",
           JObj [("type", JNum 0); ("position", JObj [("x", JNum 0)])])] /\
  getDeep (getPropDefaultsOfSheetObject Sample.schema) Sample.path_x
  = Some (JNum 0) /\
  getDeep (getPropDefaultsOfSheetObject Sample.schema) Sample.path_bogus
  = None.
Proof. repeat split. Qed.

(** C10. reconfigure replaces the value of the config atom and nothing
    else: the type tag, the address, the actions, the cache, the project
    and the sheet template of the instance are as before. *)
Theorem reconfigure_frame {Action : Type} (self : SheetObjectTemplate Action)
  (config : PropTypeConfig) :
  _config (reconfigure self config) = config /\
  type (reconfigure self config) = type self /\
  address (reconfigure self config) = address self /\
  _actions (reconfigure self config) = _actions self /\
  _cache (reconfigure self config) = _cache self /\
  project (reconfigure self config) = project self /\
  sheetTemplate (reconfigure self config) = sheetTemplate self.
Proof. repeat split. Qed.

(* ===================================================================== *)
(** * The life of an instance                                             *)
(* ===================================================================== *)

Section Lifecycle.

Context {Action : Type}.

(** One call of a method that changes the instance. *)
Inductive step : relation (SheetObjectTemplate Action) :=
| step_createInstance (self : SheetObjectTemplate Action)
    (config : PropTypeConfig) :
    step self (createInstance self config)
| step_reconfigure (self : SheetObjectTemplate Action)
    (config : PropTypeConfig) :
    step self (reconfigure self config)
| step_registerAction (self : SheetObjectTemplate Action) (name : string)
    (action : Action) :
    step self (registerAction self name action).

(** What the constructor fixes: the sheet template, the address made of
    the address of the sheet template and the object key, and the project
    of the sheet template. *)
Definition built_for (sheetTemplate0 : SheetTemplate) (key : string)
  (self : SheetObjectTemplate Action) : Prop :=
  sheetTemplate self = sheetTemplate0 /\
  address self
  = {| address_projectId := projectId (sheetTemplate_address sheetTemplate0);
       address_sheetId := sheetId (sheetTemplate_address sheetTemplate0);
       objectKey := key |} /\
  project self = sheetTemplate_project sheetTemplate0.

Lemma step_built_for (sheetTemplate0 : SheetTemplate) (key : string)
  (self self' : SheetObjectTemplate Action) :
  step self self' -> built_for sheetTemplate0 key self ->
  built_for sheetTemplate0 key self'.
Proof. intros Hstep Hself. destruct Hstep; exact Hself. Qed.

Lemma rtc_built_for (sheetTemplate0 : SheetTemplate) (key : string)
  (self self' : SheetObjectTemplate Action) :
  rtc step self self' -> built_for sheetTemplate0 key self ->
  built_for sheetTemplate0 key self'.
Proof.
  induction 1 as [|a b c Hstep _ IH]; [trivial|].
  intros Ha. apply IH. now apply (step_built_for _ _ a).
Qed.

End Lifecycle.

(** X1. Whatever methods are called on an instance after its
    construction, its sheet template, its address and its project are
    those the constructor set: the address is the address of the sheet
    template with the object key, and the project is the project of the
    sheet template. *)
Theorem instance_keeps_identity {Action : Type}
  (sheetTemplate0 : SheetTemplate) (key : string) (config : PropTypeConfig)
  (actions : gmap string Action) (self : SheetObjectTemplate Action) :
  rtc step (constructor sheetTemplate0 key config actions) self ->
  sheetTemplate self = sheetTemplate0 /\
  address self
  = {| address_projectId := projectId (sheetTemplate_address sheetTemplate0);
       address_sheetId := sheetId (sheetTemplate_address sheetTemplate0);
       objectKey := key |} /\
  project self = sheetTemplate_project sheetTemplate0.
Proof.
  intros Hsteps. apply (rtc_built_for sheetTemplate0 key _ self Hsteps).
  repeat split.
Qed.

(** X2. The derivations of an instance depend on what was called on it
    only through its current config: getDefaultValues, getStaticValues
    and getArrayOfValidSequenceTracks give what they give for an instance
    newly constructed with that config, and getStaticValues reads the
    state of the same sheet of the same project as
    getArrayOfValidSequenceTracks, though the source names the project
    through the sheet template in one and directly in the other. *)
Theorem derivations_follow_config {Action : Type}
  (sheetTemplate0 : SheetTemplate) (key : string) (config : PropTypeConfig)
  (actions : gmap string Action) (self : SheetObjectTemplate Action)
  (store : Store) :
  rtc step (constructor sheetTemplate0 key config actions) self ->
  getDefaultValues self
  = getDefaultValues (constructor sheetTemplate0 key (_config self) actions) /\
  getStaticValues self store
  = getStaticValues (constructor sheetTemplate0 key (_config self) actions)
      store /\
  getArrayOfValidSequenceTracks self store
  = getArrayOfValidSequenceTracks
      (constructor sheetTemplate0 key (_config self) actions) store /\
  pointerToSheetState store (sheetTemplate_project (sheetTemplate self))
    (address_sheetId (address self))
  = pointerToSheetState store (project self) (address_sheetId (address self)).
Proof.
  intros Hsteps.
  destruct (rtc_built_for sheetTemplate0 key _ self Hsteps) as (Hst & Haddr & Hpr);
    [repeat split|].
  unfold getStaticValues, getArrayOfValidSequenceTracks, getDefaultValues.
  rewrite Hst, Haddr, Hpr. repeat split.
Qed.

(** A sheet template, a store with the track map of the spec's example
    for one object, and an instance on which three methods were called. *)
Module SampleInstance.

Definition sheet : SheetTemplate :=
  {| sheetTemplate_address := {| projectId := "project"; sheetId := "sheet" |};
     sheetTemplate_project := "project" |}.

Definition store : Store :=
  {[ "project" :=
       {[ "sheet" :=
            {| staticOverrides_byObject := {[ "box" := JObj [("a", JNum 1)] ]};
               sequence_tracksByObject := {[ "box" := Sample.tracks ]} |} ]} ]}.

Definition built : SheetObjectTemplate nat :=
  constructor sheet "box" Sample.flat ∅.

Definition used : SheetObjectTemplate nat :=
  reconfigure (registerAction (createInstance built Sample.lenient) "play" 1%nat)
              Sample.schema.

(** An instance newly constructed with the config of [used]. *)
Definition fresh : SheetObjectTemplate nat :=
  constructor sheet "box" Sample.schema ∅.

Lemma built_used : rtc step built used.
Proof.
  eapply rtc_l; [apply step_createInstance|].
  eapply rtc_l; [apply step_registerAction|].
  eapply rtc_l; [apply step_reconfigure|].
  apply rtc_refl.
Defined.

End SampleInstance.

Lemma instance_keeps_identity_witness :
  sheetTemplate SampleInstance.used = SampleInstance.sheet /\
  address SampleInstance.used
  = {| address_projectId := "project"; address_sheetId := "sheet";
       objectKey := "box" |} /\
  project SampleInstance.used = "project".
Proof.
  apply (instance_keeps_identity SampleInstance.sheet "box" Sample.flat ∅
           SampleInstance.used SampleInstance.built_used).
Defined.

Lemma derivations_follow_config_witness :
  getDefaultValues SampleInstance.used
  = getDefaultValues SampleInstance.fresh /\
  getStaticValues SampleInstance.used SampleInstance.store
  = getStaticValues SampleInstance.fresh SampleInstance.store /\
  getArrayOfValidSequenceTracks SampleInstance.used SampleInstance.store
  = getArrayOfValidSequenceTracks SampleInstance.fresh SampleInstance.store /\
  pointerToSheetState SampleInstance.store
    (sheetTemplate_project (sheetTemplate SampleInstance.used))
    (address_sheetId (address SampleInstance.used))
  = pointerToSheetState SampleInstance.store (project SampleInstance.used)
      (address_sheetId (address SampleInstance.used)).
Proof.
  apply (derivations_follow_config SampleInstance.sheet "box" Sample.flat ∅
           SampleInstance.used SampleInstance.store SampleInstance.built_used).
Defined.

(** The method on the sample store gives the result of the spec's
    example. *)
Example method_example :
  run (getArrayOfValidSequenceTracks SampleInstance.used SampleInstance.store)
  = (Some [{| pathToProp := Sample.path_type; trackId := "trk1" |};
           {| pathToProp := Sample.path_x; trackId := "trk2" |}], []).
Proof. vm_compute. reflexivity. Qed.

(** X3. registerAction stores the action under its name and leaves the
    other actions and the config as they were; a second registration
    under the same name replaces the first, and registrations under
    different names can be made in either order. *)
Theorem registerAction_stores {Action : Type}
  (self : SheetObjectTemplate Action) (name other : string)
  (action action' : Action) :
  staticActions (registerAction self name action) !! name = Some action /\
  (other <> name ->
   staticActions (registerAction self name action) !! other
   = staticActions self !! other) /\
  staticConfig (registerAction self name action) = staticConfig self /\
  registerAction (registerAction self name action) name action'
  = registerAction self name action' /\
  (other <> name ->
   registerAction (registerAction self name action) other action'
   = registerAction (registerAction self other action') name action).
Proof.
  unfold staticActions, staticConfig, registerAction. cbn.
  split; [apply lookup_insert_eq|].
  split; [intros Hne; now apply lookup_insert_ne|].
  split; [reflexivity|].
  split; [now rewrite insert_insert_eq|].
  intros Hne. f_equal. now apply insert_insert_ne.
Qed.

Lemma registerAction_stores_witness :
  staticActions (registerAction SampleInstance.used "stop" 2%nat) !! "play"
  = Some 1%nat /\
  registerAction (registerAction SampleInstance.used "play" 3%nat) "stop" 2%nat
  = registerAction (registerAction SampleInstance.used "stop" 2%nat) "play"
      3%nat.
Proof.
  split.
  - rewrite (proj1 (proj2 (registerAction_stores SampleInstance.used
                             "stop" "play" 2%nat 2%nat))) by discriminate.
    reflexivity.
  - apply (proj2 (proj2 (proj2 (proj2 (registerAction_stores
             SampleInstance.used "play" "stop" 3%nat 2%nat))))).
    discriminate.
Defined.

(* ===================================================================== *)
(** * More on the array of valid sequence tracks                          *)
(* ===================================================================== *)

Lemma surviving_parses (objectConfig : PropTypeConfig)
  (entry : string * SequenceTrackId) (track : Track) :
  surviving objectConfig entry = Some track ->
  JSON_parse (fst entry) = Some (json_of_path (pathToProp track)).
Proof.
  intros H. apply surviving_pathToProp in H as [Hdecode _].
  unfold decode in Hdecode.
  destruct (JSON_parse (fst entry)) as [v|]; [|discriminate].
  cbn in Hdecode. now apply asPathToProp_inv in Hdecode as ->.
Qed.



Lemma survivors_and_diagnostics (objectConfig : PropTypeConfig)
  (raw : TrackIdByPropPath) :
  (length (omap (surviving objectConfig) raw) +
   length (flat_map (fun entry => diagnostic (fst entry)) raw)
   <= length raw)%nat.
Proof.
  induction raw as [|entry raw IH]; [reflexivity|].
  cbn [omap list_omap flat_map]. rewrite length_app.
  assert (Hone : (length (diagnostic (fst entry)) <= 1)%nat).
  { unfold diagnostic. destruct (JSON_parse (fst entry)); cbn [length]; lia. }
  destruct (surviving objectConfig entry) as [track|] eqn:Hsurv.
  - assert (Hnone : diagnostic (fst entry) = []).
    { apply surviving_parses in Hsurv. unfold diagnostic. now rewrite Hsurv. }
    rewrite Hnone. cbn [length]. lia.
  - cbn [length]. lia.
Qed.

(** X5. An entry of the raw track map gives at most one track or one
    warning, never both: the tracks that a call returns and the warnings
    it logs are together no more than the entries. *)
Theorem tracks_and_warnings_bounded (objectConfig : PropTypeConfig)
  (raw : TrackIdByPropPath) (arr : list Track) :
  result (arrayOfValidSequenceTracks objectConfig (Some raw)) = Some arr ->
  (length arr +
   length (warnings (arrayOfValidSequenceTracks objectConfig (Some raw)))
   <= length raw)%nat.
Proof.
  intros Hreturns. unfold warnings, run.
  apply arrayOfValidSequenceTracks_Some in Hreturns as (_ & -> & ->).
  cbn [app]. rewrite (Permutation_length (sort_Permutation _ _)).
  apply survivors_and_diagnostics.
Qed.

Lemma tracks_and_warnings_bounded_witness :
  (length [{| pathToProp := Sample.path_type; trackId := "trk1" |};
           {| pathToProp := Sample.path_x; trackId := "trk2" |}] +
   length (warnings (arrayOfValidSequenceTracks Sample.schema
                       (Some Sample.tracks_corrupted)))
   <= length Sample.tracks_corrupted)%nat.
Proof.
  apply (tracks_and_warnings_bounded Sample.schema Sample.tracks_corrupted).
  vm_compute. reflexivity.
Defined.

Lemma typedKeys_app (first second : TrackIdByPropPath) :
  typedKeys (first ++ second) = typedKeys first && typedKeys second.
Proof. apply forallb_app. Qed.

(** X6. The entries are processed one by one: when the call on a track
    map in two parts returns an array, so do the calls on the parts; the
    warnings are those of the first part followed by those of the second,
    and the array is the tracks of the two parts together, in the order
    of the config. *)
Theorem tracks_of_two_parts (objectConfig : PropTypeConfig)
  (first second : TrackIdByPropPath) (arr : list Track) :
  result (arrayOfValidSequenceTracks objectConfig (Some (first ++ second)))
  = Some arr ->
  exists arr1 arr2,
    result (arrayOfValidSequenceTracks objectConfig (Some first)) = Some arr1 /\
    result (arrayOfValidSequenceTracks objectConfig (Some second)) = Some arr2 /\
    warnings (arrayOfValidSequenceTracks objectConfig (Some (first ++ second)))
    = warnings (arrayOfValidSequenceTracks objectConfig (Some first)) ++
      warnings (arrayOfValidSequenceTracks objectConfig (Some second)) /\
    arr ≡ₚ arr1 ++ arr2 /\
    StronglySorted (le_key (orderOf objectConfig)) arr.
Proof.
  intros Hreturns. unfold result, warnings, run in *.
  apply arrayOfValidSequenceTracks_Some in Hreturns as (Htyped & -> & _).
  pose proof Htyped as Hparts. rewrite typedKeys_app in Hparts.
  apply andb_true_iff in Hparts as [Hfirst Hsecond].
  exists (JsArray.sort (comparator objectConfig)
            (omap (surviving objectConfig) first)),
         (JsArray.sort (comparator objectConfig)
            (omap (surviving objectConfig) second)).
  rewrite !arrayOfValidSequenceTracks_spec by assumption.
  cbn [fst snd app].
  split; [reflexivity|]. split; [reflexivity|].
  split; [apply flat_map_app|].
  split; [|apply survivors_sorted].
  now rewrite !sort_Permutation, omap_app.
Qed.

Lemma tracks_of_two_parts_witness :
  exists arr1 arr2,
    result (arrayOfValidSequenceTracks Sample.schema
              (Some [(stringify_path Sample.path_x, "trk2")])) = Some arr1 /\
    result (arrayOfValidSequenceTracks Sample.schema
              (Some [(stringify_path Sample.path_type, "trk1")])) = Some arr2 /\
    warnings (arrayOfValidSequenceTracks Sample.schema
                (Some ([(stringify_path Sample.path_x, "trk2")] ++
                       [(stringify_path Sample.path_type, "trk1")])))
    = warnings (arrayOfValidSequenceTracks Sample.schema
                  (Some [(stringify_path Sample.path_x, "trk2")])) ++
      warnings (arrayOfValidSequenceTracks Sample.schema
                  (Some [(stringify_path Sample.path_type, "trk1")])) /\
    [{| pathToProp := Sample.path_type; trackId := "trk1" |};
     {| pathToProp := Sample.path_x; trackId := "trk2" |}] ≡ₚ arr1 ++ arr2 /\
    StronglySorted (le_key (orderOf Sample.schema))
      [{| pathToProp := Sample.path_type; trackId := "trk1" |};
       {| pathToProp := Sample.path_x; trackId := "trk2" |}].
Proof.
  apply (tracks_of_two_parts Sample.schema
           [(stringify_path Sample.path_x, "trk2")]
           [(stringify_path Sample.path_type, "trk1")]).
  vm_compute. reflexivity.
Defined.

(** X7. The comparator of the sort, on two tracks whose paths have
    different indices in the mapping: it is positive exactly when the
    index of the first is the greater, and exchanging the two tracks
    changes its sign. When the path of either track is not in the mapping
    it is -1. *)
Theorem comparator_on_indices (mapping : gmap string nat) (a b : Track)
  (i j : nat) :
  (mapping !! stringify_path (pathToProp a) = Some i ->
   mapping !! stringify_path (pathToProp b) = Some j ->
   i <> j ->
   (compareTracks mapping a b = 1 <-> (j < i)%nat) /\
   compareTracks mapping a b = - compareTracks mapping b a) /\
  (mapping !! stringify_path (pathToProp a) = None \/
   mapping !! stringify_path (pathToProp b) = None ->
   compareTracks mapping a b = -1).
Proof.
  unfold compareTracks. split.
  - intros -> -> Hne. cbn [JsArray.gt].
    destruct (Nat.ltb_spec j i) as [Hlt|Hge];
      destruct (Nat.ltb_spec i j) as [Hlt'|Hge']; try lia;
      (split; [split; [intros; lia | intros; (reflexivity || lia)] | reflexivity]).
  - intros [-> | ->]; [reflexivity|].
    now destruct (mapping !! stringify_path (pathToProp a)).
Qed.

Lemma comparator_on_indices_witness :
  (comparator Sample.schema
     {| pathToProp := Sample.path_x; trackId := "trk2" |}
     {| pathToProp := Sample.path_type; trackId := "trk1" |} = 1
   <-> (0 < 1)%nat) /\
  comparator Sample.schema
    {| pathToProp := Sample.path_x; trackId := "trk2" |}
    {| pathToProp := Sample.path_type; trackId := "trk1" |}
  = - comparator Sample.schema
        {| pathToProp := Sample.path_type; trackId := "trk1" |}
        {| pathToProp := Sample.path_x; trackId := "trk2" |}.
Proof.
  apply (proj1 (comparator_on_indices
                  (getOrderingOfPropTypeConfig Sample.schema)
                  {| pathToProp := Sample.path_x; trackId := "trk2" |}
                  {| pathToProp := Sample.path_type; trackId := "trk1" |}
                  1%nat 0%nat));
    [vm_compute; reflexivity | vm_compute; reflexivity | discriminate].
Defined.

(** X8. getStaticValues never returns a falsy value, whatever the hook
    of the config returns, and the hook is never called on null: absent
    and null overrides reach it as an empty object. *)
Theorem static_values_truthy {Action : Type}
  (self : SheetObjectTemplate Action) (store : Store)
  (config : PropTypeConfig) (overrides : JSValue) :
  truthy (staticValues config overrides) = true /\
  (forall values,
     getStaticValues self store = Some values -> truthy values = true) /\
  nullish_or overrides (JObj []) <> JNull /\
  staticValues config overrides
  = staticValues config (Some (nullish_or overrides (JObj []))).
Proof.
  assert (Htruthy : forall conf o, truthy (staticValues conf o) = true).
  { intros conf o. unfold staticValues, falsy_or.
    destruct (deserializeAndSanitize conf _) as [v|]; [|reflexivity].
    now destruct (truthy v) eqn:Hv. }
  split; [apply Htruthy|].
  split; [intros values Hvalues; apply getStaticValues_body in Hvalues as ->;
          apply Htruthy|].
  split; [now destruct overrides as [[]|]|].
  now destruct overrides as [[]|].
Qed.

(* ===================================================================== *)
(** * More on the tree of valid sequence tracks                           *)
(* ===================================================================== *)

Section TreeContents.

Lemma reach_TId_inv (stored id : SequenceTrackId) (q : PathToProp) :
  reach (TId stored) q = Some (TId id) -> q = [] /\ stored = id.
Proof. destruct q; cbn [reach]; [intros [= ->]; now split | discriminate]. Qed.

Lemma reach_empty_TId (isArray : bool) (q : PathToProp) (id : SequenceTrackId) :
  reach (TObj isArray []) q <> Some (TId id).
Proof. destruct q; cbn; discriminate. Qed.

(** A track id found in the object after [set] was put there by this
    call, at the keys of its path, or was there before. *)
Lemma reach_baseSet_TId (path : PathToProp) :
  forall (props props' : list (string * TrackIdTree)) (isArray : bool)
         (stored id : SequenceTrackId) (q : PathToProp),
    baseSet isArray props path (TId stored) = Some props' ->
    reach (TObj isArray props') q = Some (TId id) ->
    (id = stored /\ toKey <$> q = toKey <$> path) \/
    reach (TObj isArray props) q = Some (TId id).
Proof.
  induction path as [|seg path IH];
    intros props props' isArray stored id q Hset H;
    [injection Hset as <-; now right|].
  apply baseSet_inv in Hset.
  destruct (reserved (toKey seg)); [subst props'; now right|].
  destruct q as [|qseg q]; [discriminate H|].
  cbn [reach] in H |- *.
  destruct (String.eqb_spec (toKey seg) (toKey qseg)) as [Heq|Hne].
  - rewrite <- Heq in H |- *. destruct path as [|next path].
    + subst props'. rewrite prop_named_obj_set_eq in H.
      apply reach_TId_inv in H as [-> ->]. left.
      split; [reflexivity|]. cbn [fmap list_fmap]. now rewrite Heq.
    + destruct Hset as (below & nested & nested' & Hnested & -> & Hwas).
      rewrite prop_named_obj_set_eq in H.
      destruct (IH nested nested' below stored id q Hnested H)
        as [[-> Hq]|Hold].
      * left. split; [reflexivity|]. cbn [fmap list_fmap] in Hq |- *.
        rewrite Heq. congruence.
      * right. destruct Hwas as [-> | [-> _]]; [exact Hold|].
        now apply reach_empty_TId in Hold.
  - assert (Hother : forall v,
      prop_named (toKey qseg) (obj_set props (toKey seg) v)
      = prop_named (toKey qseg) props).
    { intros v. now apply prop_named_obj_set_ne. }
    right. destruct path as [|next path]; [subst props'; now rewrite Hother in H|].
    destruct Hset as (below & nested & nested' & _ & -> & _).
    now rewrite Hother in H.
Qed.

Lemma reach_setTracks_TId (arr : list Track) :
  forall (isArray : bool) (props : list (string * TrackIdTree))
         (tree : TrackIdTree) (q : PathToProp) (id : SequenceTrackId),
    setTracks arr (TObj isArray props) = Some tree ->
    reach tree q = Some (TId id) ->
    (exists track, track ∈ arr /\ trackId track = id /\
                   toKey <$> q = toKey <$> pathToProp track) \/
    reach (TObj isArray props) q = Some (TId id).
Proof.
  induction arr as [|head arr IH]; intros isArray props tree q id Htree H;
    [injection Htree as <-; now right|].
  cbn [setTracks] in Htree.
  destruct (set (TObj isArray props) (pathToProp head) (TId (trackId head)))
    as [after|] eqn:Hset; [|discriminate Htree].
  cbn in Htree. apply set_TObj in Hset as (props' & -> & Hprops').
  destruct (IH isArray props' tree q id Htree H)
    as [(track & Hin & Hid & Hq)|Hold].
  - left. exists track. split; [now right | now split].
  - destruct (reach_baseSet_TId _ _ _ _ _ _ _ Hprops' Hold) as [[-> Hq]|Hwas].
    + left. exists head. split; [now left | now split].
    + now right.
Qed.

(** No path through a reserved key leads anywhere in the tree. *)
Definition no_reserved_key (tree : TrackIdTree) : Prop :=
  forall q, assignable q = false -> reach tree q = None.

Lemma no_reserved_key_baseSet (path : PathToProp) :
  forall (props props' : list (string * TrackIdTree)) (isArray : bool)
         (value : TrackIdTree),
    no_reserved_key (TObj isArray props) -> no_reserved_key value ->
    baseSet isArray props path value = Some props' ->
    no_reserved_key (TObj isArray props').
Proof.
  induction path as [|seg path IH];
    intros props props' isArray value Hprops Hvalue Hset;
    [now injection Hset as <-|].
  apply baseSet_inv in Hset.
  destruct (reserved (toKey seg)) eqn:Hseg; [now subst props'|].
  intros [|qseg q] Hq; [discriminate Hq|].
  cbn [assignable forallb] in Hq. cbn [reach].
  assert (Hnew : forall sub,
    no_reserved_key sub ->
    match prop_named (toKey qseg) (obj_set props (toKey seg) sub) with
    | Some sub' => reach sub' q
    | None => None
    end = None).
  { intros sub Hsub.
    destruct (String.eqb_spec (toKey seg) (toKey qseg)) as [Heq|Hne].
    - rewrite <- Heq in *. rewrite prop_named_obj_set_eq.
      apply Hsub. rewrite Hseg in Hq. exact Hq.
    - rewrite prop_named_obj_set_ne by assumption.
      apply (Hprops (qseg :: q)). exact Hq. }
  destruct path as [|next path]; [subst props'; now apply Hnew|].
  destruct Hset as (below & nested & nested' & Hnested & -> & Hwas).
  apply Hnew. apply (IH nested nested' below value); [|exact Hvalue|exact Hnested].
  destruct Hwas as [Hsub | [-> _]].
  - intros r Hr. specialize (Hprops (seg :: r)).
    cbn [assignable forallb reach] in Hprops. rewrite Hseg, Hsub in Hprops.
    now apply Hprops.
  - intros [|s r] Hr; [discriminate Hr | reflexivity].
Qed.

Lemma no_reserved_key_setTracks (arr : list Track) :
  forall (isArray : bool) (props : list (string * TrackIdTree))
         (tree : TrackIdTree),
    no_reserved_key (TObj isArray props) ->
    setTracks arr (TObj isArray props) = Some tree ->
    no_reserved_key tree.
Proof.
  induction arr as [|head arr IH]; intros isArray props tree H Htree;
    [now injection Htree as <-|].
  cbn [setTracks] in Htree.
  destruct (set (TObj isArray props) (pathToProp head) (TId (trackId head)))
    as [after|] eqn:Hset; [|discriminate Htree].
  cbn in Htree. apply set_TObj in Hset as (props' & -> & Hprops').
  apply (IH isArray props' tree); [|exact Htree].
  apply (no_reserved_key_baseSet _ _ _ _ _ H) in Hprops'; [exact Hprops'|].
  intros [|s r] Hr; [discriminate Hr | reflexivity].
Qed.

Lemma setTracks_app (before after : list Track) :
  forall map,
    setTracks (before ++ after) map
    = setTracks before map ≫= setTracks after.
Proof.
  induction before as [|head before IH]; intros map; [reflexivity|].
  cbn [app setTracks].
  destruct (set map (pathToProp head) (TId (trackId head))) as [map'|];
    [apply IH | reflexivity].
Qed.

Lemma setTracks_TObj (arr : list Track) :
  forall (isArray : bool) (props : list (string * TrackIdTree))
         (tree : TrackIdTree),
    setTracks arr (TObj isArray props) = Some tree ->
    exists props', tree = TObj isArray props'.
Proof.
  induction arr as [|head arr IH]; intros isArray props tree Htree.
  - injection Htree as <-. now exists props.
  - cbn [setTracks] in Htree.
    destruct (set (TObj isArray props) (pathToProp head) (TId (trackId head)))
      as [after|] eqn:Hset; [|discriminate Htree].
    cbn in Htree. apply set_TObj in Hset as (props' & -> & _).
    now apply (IH isArray props').
Qed.

End TreeContents.

(** X9. The loop of getMapOfValidSequenceTracks_forStudio assigns in the
    order of the array: in the tree that the loop builds, a track with a
    path of one key or more, none of them reserved, is at its path when
    no later track of the array has a path that is a prefix or an
    extension of it. In particular the last track of an array is in the
    tree, whatever was assigned before it. *)
Theorem last_assignment_wins (before after : list Track) (track : Track)
  (tree : TrackIdTree) :
  pathToProp track <> [] ->
  assignable (pathToProp track) = true ->
  Forall (fun later => disjoint (pathToProp track) (pathToProp later)) after ->
  mapOfValidSequenceTracks (before ++ track :: after) = Some tree ->
  reach tree (pathToProp track) = Some (TId (trackId track)).
Proof.
  intros Hne Hok Hafter Htree. unfold mapOfValidSequenceTracks in Htree.
  rewrite setTracks_app in Htree.
  destruct (setTracks before emptyMap) as [mid|] eqn:Hmid; [|discriminate Htree].
  apply setTracks_TObj in Hmid as [props ->].
  cbn [mbind option_bind setTracks] in Htree.
  destruct (set (TObj false props) (pathToProp track) (TId (trackId track)))
    as [assigned|] eqn:Hset; [|discriminate Htree].
  cbn in Htree. apply set_TObj in Hset as (props' & -> & Hprops').
  rewrite (reach_setTracks_other after false props' (pathToProp track) tree
             Hafter Htree).
  now apply (reach_baseSet_same (pathToProp track) props props' false).
Qed.

Lemma last_assignment_wins_witness :
  reach (TObj false
           [("transform",
             TObj false [("position", TObj false [("x", TId "new")]);
                         ("type", TId "trk1")])])
        Sample.path_x
  = Some (TId "new").
Proof.
  apply (last_assignment_wins
           [{| pathToProp := Sample.path_x; trackId := "old" |}]
           [{| pathToProp := Sample.path_type; trackId := "trk1" |}]
           {| pathToProp := Sample.path_x; trackId := "new" |});
    [discriminate | reflexivity | | reflexivity].
  repeat constructor.
Defined.

(** X10. The tree of getMapOfValidSequenceTracks_forStudio holds no
    track id of its own making: a track id found in the tree at some path
    is the id of a track of the array, and the keys of that path are
    those of the path of that track. *)
Theorem tree_ids_from_tracks (arr : list Track) (tree : TrackIdTree)
  (q : PathToProp) (id : SequenceTrackId) :
  mapOfValidSequenceTracks arr = Some tree ->
  reach tree q = Some (TId id) ->
  exists track,
    track ∈ arr /\ trackId track = id /\
    toKey <$> q = toKey <$> pathToProp track.
Proof.
  intros Htree H.
  destruct (reach_setTracks_TId arr false [] tree q id Htree H) as [Hin|Hold];
    [exact Hin|].
  now apply reach_empty_TId in Hold.
Qed.

Lemma tree_ids_from_tracks_witness :
  exists track,
    track ∈ [{| pathToProp := Sample.path_type; trackId := "trk1" |};
             {| pathToProp := Sample.path_x; trackId := "trk2" |}] /\
    trackId track = "trk2" /\
    toKey <$> Sample.path_x = toKey <$> pathToProp track.
Proof.
  eapply (tree_ids_from_tracks
            [{| pathToProp := Sample.path_type; trackId := "trk1" |};
             {| pathToProp := Sample.path_x; trackId := "trk2" |}]
            _ Sample.path_x "trk2");
    [vm_compute; reflexivity | reflexivity].
Defined.

(** X11. The tree of getMapOfValidSequenceTracks_forStudio never gets a
    property named __proto__, constructor or prototype of its own: at a
    path with such a key nothing is stored, for every array of tracks. *)
Theorem reserved_keys_never_assigned (arr : list Track) (tree : TrackIdTree)
  (q : PathToProp) :
  assignable q = false ->
  mapOfValidSequenceTracks arr = Some tree ->
  reach tree q = None.
Proof.
  intros Hq Htree. revert q Hq.
  apply (no_reserved_key_setTracks arr false [] tree); [|exact Htree].
  intros [|s r] Hr; [discriminate Hr | reflexivity].
Qed.

Lemma reserved_keys_never_assigned_witness :
  reach (TObj false [("position", TObj false [])])
        [PStr "position"; PStr "constructor"]
  = None.
Proof.
  apply (reserved_keys_never_assigned
           [{| pathToProp := [PStr "position"; PStr "constructor"];
               trackId := "t1" |}]
           (TObj false [("position", TObj false [])])
           [PStr "position"; PStr "constructor"]);
    reflexivity.
Defined.

(* ===================================================================== *)
(** * More on the keys of the track map                                   *)
(* ===================================================================== *)

Section MoreFuel.

(** A budget that was enough stays enough. *)
Lemma parse_more_fuel (fuel : nat) :
  (forall s, parse_value fuel s <> OutOfFuel ->
             parse_value (S fuel) s = parse_value fuel s) /\
  (forall s, parse_elements fuel s <> OutOfFuel ->
             parse_elements (S fuel) s = parse_elements fuel s) /\
  (forall s, parse_members fuel s <> OutOfFuel ->
             parse_members (S fuel) s = parse_members fuel s).
Proof.
  induction fuel as [|fuel (IHv & IHe & IHm)].
  - repeat split; intros s H; now contradict H.
  - split; [|split]; intros s H.
    + rewrite parse_value_S in H.
      rewrite (parse_value_S (S fuel)), (parse_value_S fuel).
      destruct (skip_ws s) as [|c r]; [reflexivity|].
      destruct (c =? "n")%char; [reflexivity|].
      destruct (c =? "t")%char; [reflexivity|].
      destruct (c =? "f")%char; [reflexivity|].
      destruct (c =? dquote)%char; [reflexivity|].
      destruct (c =? "[")%char.
      { destruct (skip_ws r) as [|c' r'];
          [|destruct (c' =? "]")%char; [reflexivity|]];
          (rewrite IHe; [reflexivity|]; intros E; rewrite E in H;
           now apply H). }
      destruct (c =? "{")%char; [|reflexivity].
      destruct (skip_ws r) as [|c' r'];
        [|destruct (c' =? "}")%char; [reflexivity|]];
        (rewrite IHm; [reflexivity|]; intros E; rewrite E in H;
         now apply H).
    + rewrite parse_elements_S' in H.
      rewrite (parse_elements_S' (S fuel)), (parse_elements_S' fuel).
      rewrite IHv by (intros E; rewrite E in H; now apply H).
      destruct (parse_value fuel s) as [v r| |]; try reflexivity.
      destruct (skip_ws r) as [|c r']; [reflexivity|].
      destruct (c =? ",")%char; [|reflexivity].
      rewrite IHe; [reflexivity|]. intros E. rewrite E in H. now apply H.
    + rewrite parse_members_S in H.
      rewrite (parse_members_S (S fuel)), (parse_members_S fuel).
      destruct (skip_ws s) as [|c r]; [reflexivity|].
      destruct (c =? dquote)%char; [|reflexivity].
      destruct (parse_chars r) as [[k r1]|]; [|reflexivity].
      destruct (skip_ws r1) as [|c1 r2]; [reflexivity|].
      destruct (c1 =? ":")%char; [|reflexivity].
      rewrite IHv by (intros E; rewrite E in H; now apply H).
      destruct (parse_value fuel r2) as [v r3| |]; try reflexivity.
      destruct (skip_ws r3) as [|c3 r4]; [reflexivity|].
      destruct (c3 =? ",")%char; [|reflexivity].
      rewrite IHm; [reflexivity|]. intros E. rewrite E in H. now apply H.
Qed.

Lemma parse_value_ws (fuel : nat) (c : ascii) (s : string) :
  is_ws c = true ->
  parse_value (S fuel) (String c s) = parse_value (S fuel) s.
Proof.
  intros Hws. rewrite (parse_value_S fuel (String c s)), (parse_value_S fuel s).
  cbn [skip_ws]. now rewrite Hws.
Qed.

(** [JSON.parse] skips the white space before the value. *)
Lemma JSON_parse_ws (c : ascii) (text : string) :
  is_ws c = true -> JSON_parse (String c text) = JSON_parse text.
Proof.
  intros Hws. unfold JSON_parse.
  change (String.length (String c text)) with (S (String.length text)).
  replace (2 * S (String.length text))%nat
    with (S (S (2 * String.length text))) by lia.
  rewrite parse_value_ws by exact Hws.
  pose proof (JSON_parse_fuel text) as Hfuel.
  assert (Hone : parse_value (S (S (2 * String.length text))) text
                 = parse_value (S (2 * String.length text)) text).
  { now apply (proj1 (parse_more_fuel _)). }
  assert (Htwo : parse_value (S (S (S (2 * String.length text)))) text
                 = parse_value (S (S (2 * String.length text))) text).
  { apply (proj1 (parse_more_fuel _)). now rewrite Hone. }
  now rewrite Htwo, Hone.
Qed.

(** The key that a warning of [parsePathToProp] quotes. *)
Lemma strip_prefix_app (word rest : string) :
  strip_prefix word (word +:+ rest) = Some rest.
Proof.
  induction word as [|c word IH]; [now destruct rest|].
  change (String c word +:+ rest) with (String c (word +:+ rest)).
  cbn [strip_prefix]. now rewrite Ascii.eqb_refl.
Qed.

Lemma quoted_key (key rest : string) :
  match strip_prefix "property " ("property " +:+ JSON_stringify (JStr key)
                                  +:+ rest) with
  | Some (String _ body) => parse_chars body
  | _ => None
  end = Some (key, rest).
Proof.
  rewrite strip_prefix_app.
  change (JSON_stringify (JStr key) +:+ rest)
    with (String dquote ((quote_body key +:+ String dquote "") +:+ rest)).
  rewrite append_assoc.
  change (String dquote "" +:+ rest) with (String dquote rest).
  apply parse_chars_quote_body.
Qed.

End MoreFuel.

(** X12. parsePathToProp reads a key as JSON text, so white space before
    the text does not count: a key and the same key after a space, tab or
    line break decode to the same value, and as the only entry of a track
    map give the same tracks, with a warning for the one exactly when
    there is a warning for the other. *)
Theorem leading_white_space_ignored (objectConfig : PropTypeConfig)
  (c : ascii) (key : string) (id : SequenceTrackId) :
  is_ws c = true ->
  result (parsePathToProp (String c key)) = result (parsePathToProp key) /\
  result (arrayOfValidSequenceTracks objectConfig (Some [(String c key, id)]))
  = result (arrayOfValidSequenceTracks objectConfig (Some [(key, id)])) /\
  (warnings (arrayOfValidSequenceTracks objectConfig
               (Some [(String c key, id)])) = [] <->
   warnings (arrayOfValidSequenceTracks objectConfig (Some [(key, id)])) = []).
Proof.
  intros Hws. pose proof (JSON_parse_ws c key Hws) as Hparse.
  assert (Hone : forall k,
    run (arrayOfValidSequenceTracks objectConfig (Some [(k, id)]))
    = if typedKey k
      then (Some (JsArray.sort (comparator objectConfig)
                    (omap (surviving objectConfig) [(k, id)])),
            diagnostic k)
      else (None, [])).
  { intros k. unfold run. destruct (typedKey k) eqn:Hk.
    - rewrite arrayOfValidSequenceTracks_spec
        by (cbn [typedKeys forallb fst]; now rewrite Hk).
      cbn [flat_map fst app]. now rewrite app_nil_r.
    - unfold arrayOfValidSequenceTracks, mbind, Log_bind.
      now rewrite validEntries_cons, Hk. }
  assert (Htyped : typedKey (String c key) = typedKey key).
  { unfold typedKey. now rewrite Hparse. }
  assert (Hsurv : surviving objectConfig (String c key, id)
                  = surviving objectConfig (key, id)).
  { unfold surviving, decode. cbn [fst snd]. now rewrite Hparse. }
  split; [|split].
  - unfold result, run, parsePathToProp. rewrite Hparse.
    now destruct (JSON_parse key).
  - unfold result. rewrite !Hone, Htyped. cbn [omap list_omap].
    rewrite Hsurv. now destruct (typedKey key).
  - unfold warnings. rewrite !Hone, Htyped.
    destruct (typedKey key); cbn [snd]; [|tauto].
    unfold diagnostic. rewrite Hparse.
    destruct (JSON_parse key); split; intros H;
      (reflexivity || discriminate H).
Qed.

Lemma leading_white_space_ignored_witness :
  result (parsePathToProp (String " " Sample.key_a))
  = result (parsePathToProp Sample.key_a) /\
  result (arrayOfValidSequenceTracks Sample.flat
            (Some [(String " " Sample.key_a, "t1")]))
  = result (arrayOfValidSequenceTracks Sample.flat
              (Some [(Sample.key_a, "t1")])) /\
  (warnings (arrayOfValidSequenceTracks Sample.flat
               (Some [(String " " Sample.key_a, "t1")])) = [] <->
   warnings (arrayOfValidSequenceTracks Sample.flat
               (Some [(Sample.key_a, "t1")])) = []).
Proof.
  apply (leading_white_space_ignored Sample.flat " " Sample.key_a "t1").
  reflexivity.
Defined.

(** X13. The warning of parsePathToProp names the key: it quotes the key
    with JSON.stringify, and two keys that cannot be parsed and give the
    same warning are the same key. *)
Theorem warning_names_key (key other : string) :
  JSON_parse key = None ->
  warnings (parsePathToProp key) = warnings (parsePathToProp other) ->
  key = other.
Proof.
  intros Hkey Hsame.
  assert (Hwarn : forall k,
    JSON_parse k = None ->
    warnings (parsePathToProp k)
    = ["property " +:+ JSON_stringify (JStr k) +:+
       " cannot be parsed. Skipping."]).
  { intros k Hk. unfold warnings, run, parsePathToProp. now rewrite Hk. }
  rewrite (Hwarn key Hkey) in Hsame.
  destruct (JSON_parse other) eqn:Hother.
  - unfold warnings, run, parsePathToProp in Hsame. rewrite Hother in Hsame.
    discriminate Hsame.
  - rewrite (Hwarn other Hother) in Hsame.
    assert (Hmessage :
      "property " +:+ JSON_stringify (JStr key) +:+
      " cannot be parsed. Skipping."
      = "property " +:+ JSON_stringify (JStr other) +:+
        " cannot be parsed. Skipping.") by congruence.
    pose proof (quoted_key key " cannot be parsed. Skipping.") as Hq.
    rewrite Hmessage, quoted_key in Hq. congruence.
Qed.

Lemma warning_names_key_witness :
  JSON_parse "[oops" = None /\ "[oops" = "[oops".
Proof.
  split; [reflexivity|].
  apply (warning_names_key "[oops" "[oops"); reflexivity.
Defined.

(* ===================================================================== *)
(** * Track maps with the keys that JSON.stringify writes                 *)
(* ===================================================================== *)

(** The track map that holds each track of an array under
    [JSON.stringify] of its path: the object after an assignment for each
    track in turn. A later assignment to a key replaces the value of an
    earlier one. *)
Definition trackIdByPropPath_of (arr : list Track) : TrackIdByPropPath :=
  fold_left (fun map track =>
               obj_set map (stringify_path (pathToProp track)) (trackId track))
            arr [].

Section CanonicalKeys.

Variable objectConfig : PropTypeConfig.

Lemma obj_set_fresh {A} (members : list (string * A)) (key : string) (v : A) :
  key ∉ (fst <$> members) -> obj_set members key v = members ++ [(key, v)].
Proof.
  induction members as [|[k v'] members IH]; intros Hfresh; [reflexivity|].
  cbn [fmap list_fmap fst] in Hfresh.
  apply not_elem_of_cons in Hfresh as [Hne Hfresh].
  cbn [obj_set app]. destruct (String.eqb_spec k key); [congruence|].
  now rewrite IH.
Qed.

(** For tracks with different paths every assignment is to a new key,
    and the entries are the tracks in their order. *)
Lemma trackIdByPropPath_of_entries (arr : list Track) :
  NoDup (pathToProp <$> arr) ->
  trackIdByPropPath_of arr
  = map (fun track => (stringify_path (pathToProp track), trackId track)) arr.
Proof.
  unfold trackIdByPropPath_of.
  set (entry := fun track : Track =>
                  (stringify_path (pathToProp track), trackId track)).
  enough (Hfrom : forall done,
    NoDup (pathToProp <$> (done ++ arr)) ->
    fold_left (fun map track =>
                 obj_set map (stringify_path (pathToProp track))
                         (trackId track))
              arr (map entry done)
    = map entry (done ++ arr)) by apply (Hfrom []).
  induction arr as [|track arr IH]; intros done Hnd.
  - now rewrite app_nil_r.
  - cbn [fold_left]. rewrite obj_set_fresh.
    + replace (map entry done ++ [(stringify_path (pathToProp track),
                                   trackId track)])
        with (map entry (done ++ [track])) by apply map_app.
      rewrite IH by now rewrite <- app_assoc.
      now rewrite <- app_assoc.
    + rewrite fmap_app in Hnd. apply NoDup_app in Hnd as (_ & Hfresh & _).
      intros Hin. apply list_elem_of_fmap in Hin as ([k i] & Hk & Hin).
      apply list_elem_of_In, in_map_iff in Hin as (other & Hother & Hin).
      cbn [fst] in Hk. unfold entry in Hother. injection Hother as <- _.
      apply stringify_path_inj in Hk.
      apply (Hfresh (pathToProp other)).
      * apply list_elem_of_fmap_2. now apply list_elem_of_In.
      * rewrite <- Hk. cbn [fmap list_fmap]. now left.
Qed.

Lemma surviving_stringify_path (track : Track) :
  resolvesToSequencable objectConfig (pathToProp track) = true ->
  surviving objectConfig (stringify_path (pathToProp track), trackId track)
  = Some track.
Proof.
  unfold surviving, resolvesToSequencable. cbn [fst snd].
  rewrite decode_stringify_path. cbn.
  destruct (getPropConfigByPath objectConfig (pathToProp track));
    [|discriminate].
  intros Hseq. cbn. rewrite Hseq. now destruct track.
Qed.

Lemma survivors_of_tracks (arr : list Track) :
  Forall (fun track =>
            resolvesToSequencable objectConfig (pathToProp track) = true) arr ->
  omap (surviving objectConfig)
    (map (fun track => (stringify_path (pathToProp track), trackId track)) arr)
  = arr.
Proof.
  induction 1 as [|track arr Htrack _ IH]; [reflexivity|].
  cbn [map omap list_omap].
  rewrite (surviving_stringify_path track Htrack). now rewrite IH.
Qed.

Lemma diagnostics_of_tracks (arr : list Track) :
  flat_map (fun entry => diagnostic (fst entry))
    (map (fun track => (stringify_path (pathToProp track), trackId track)) arr)
  = [].
Proof.
  induction arr as [|track arr IH]; [reflexivity|].
  cbn [map flat_map fst].
  unfold diagnostic at 1. rewrite JSON_parse_stringify_path.
  exact IH.
Qed.

Lemma typedKeys_of_tracks (arr : list Track) :
  typedKeys
    (map (fun track => (stringify_path (pathToProp track), trackId track)) arr)
  = true.
Proof.
  induction arr as [|track arr IH]; [reflexivity|].
  cbn [map typedKeys forallb fst]. fold typedKeys.
  apply andb_true_iff. split; [|exact IH].
  apply (decode_typedKey _ (pathToProp track)), decode_stringify_path.
Qed.

Lemma survivors_resolve (raw : TrackIdByPropPath) :
  Forall (fun track =>
            resolvesToSequencable objectConfig (pathToProp track) = true)
         (omap (surviving objectConfig) raw).
Proof.
  apply Forall_forall. intros track Hin.
  apply list_elem_of_omap in Hin as (entry & _ & Hsurv).
  now apply (surviving_resolves _ entry).
Qed.

End CanonicalKeys.

(** X14. Round trip through the keys: for tracks with different paths,
    each of which resolves to a sequencable prop of the config, the track
    map that holds each under JSON.stringify of its path is read back
    whole by getArrayOfValidSequenceTracks, which returns these tracks,
    sorted by the comparator, and logs no warning. *)
Theorem stringified_tracks_read_back (objectConfig : PropTypeConfig)
  (arr : list Track) :
  NoDup (pathToProp <$> arr) ->
  Forall (fun track =>
            resolvesToSequencable objectConfig (pathToProp track) = true) arr ->
  run (arrayOfValidSequenceTracks objectConfig
         (Some (trackIdByPropPath_of arr)))
  = (Some (JsArray.sort
             (compareTracks (getOrderingOfPropTypeConfig objectConfig)) arr),
     []) /\
  JsArray.sort (compareTracks (getOrderingOfPropTypeConfig objectConfig)) arr
    ≡ₚ arr.
Proof.
  intros Hnd Hvalid. split; [|apply sort_Permutation].
  unfold run. rewrite trackIdByPropPath_of_entries by exact Hnd.
  rewrite arrayOfValidSequenceTracks_spec by apply typedKeys_of_tracks.
  now rewrite survivors_of_tracks, diagnostics_of_tracks.
Qed.

Lemma stringified_tracks_read_back_witness :
  run (arrayOfValidSequenceTracks Sample.schema
         (Some (trackIdByPropPath_of
                  [{| pathToProp := Sample.path_x; trackId := "trk2" |};
                   {| pathToProp := Sample.path_type; trackId := "trk1" |}])))
  = (Some (JsArray.sort
             (compareTracks (getOrderingOfPropTypeConfig Sample.schema))
             [{| pathToProp := Sample.path_x; trackId := "trk2" |};
              {| pathToProp := Sample.path_type; trackId := "trk1" |}]), []) /\
  JsArray.sort (compareTracks (getOrderingOfPropTypeConfig Sample.schema))
    [{| pathToProp := Sample.path_x; trackId := "trk2" |};
     {| pathToProp := Sample.path_type; trackId := "trk1" |}]
    ≡ₚ [{| pathToProp := Sample.path_x; trackId := "trk2" |};
        {| pathToProp := Sample.path_type; trackId := "trk1" |}].
Proof.
  apply (stringified_tracks_read_back Sample.schema
           [{| pathToProp := Sample.path_x; trackId := "trk2" |};
            {| pathToProp := Sample.path_type; trackId := "trk1" |}]).
  - apply (bool_decide_unpack _). vm_compute. reflexivity.
  - repeat constructor.
Defined.

(** X15. What getArrayOfValidSequenceTracks returns is a fixed point:
    when no two keys of valid entries decode to the same path, the tracks
    it returns, stored under JSON.stringify of their paths, are returned
    again by a second call, the same tracks in the same order, and the
    second call logs no warning. *)
Theorem valid_tracks_fixed_point (objectConfig : PropTypeConfig)
  (raw : TrackIdByPropPath) (arr : list Track) :
  NoDup (validPaths objectConfig raw) ->
  result (arrayOfValidSequenceTracks objectConfig (Some raw)) = Some arr ->
  run (arrayOfValidSequenceTracks objectConfig
         (Some (trackIdByPropPath_of arr)))
  = (Some arr, []).
Proof.
  intros Hnd Hreturns.
  apply arrayOfValidSequenceTracks_Some in Hreturns as (_ & Harr & _).
  assert (Hperm : arr ≡ₚ omap (surviving objectConfig) raw)
    by (rewrite Harr; apply sort_Permutation).
  assert (Hvalid : Forall (fun track =>
            resolvesToSequencable objectConfig (pathToProp track) = true) arr).
  { rewrite Hperm. apply survivors_resolve. }
  assert (Hpaths : NoDup (pathToProp <$> arr)).
  { unfold validPaths in Hnd. now rewrite Hperm. }
  unfold run. rewrite trackIdByPropPath_of_entries by exact Hpaths.
  rewrite arrayOfValidSequenceTracks_spec by apply typedKeys_of_tracks.
  rewrite diagnostics_of_tracks, survivors_of_tracks by exact Hvalid.
  do 2 f_equal. symmetry.
  rewrite <- (survivors_of_tracks objectConfig arr Hvalid) at 2.
  apply sorted_survivors_unique.
  - unfold validPaths. now rewrite survivors_of_tracks.
  - now rewrite survivors_of_tracks.
  - rewrite Harr. apply survivors_sorted.
Qed.

Lemma valid_tracks_fixed_point_witness :
  run (arrayOfValidSequenceTracks Sample.schema
         (Some (trackIdByPropPath_of
                  [{| pathToProp := Sample.path_type; trackId := "trk1" |};
                   {| pathToProp := Sample.path_x; trackId := "trk2" |}])))
  = (Some [{| pathToProp := Sample.path_type; trackId := "trk1" |};
           {| pathToProp := Sample.path_x; trackId := "trk2" |}], []).
Proof.
  apply (valid_tracks_fixed_point Sample.schema Sample.tracks).
  - apply (bool_decide_unpack _). vm_compute. reflexivity.
  - vm_compute. reflexivity.
Defined.

(* ===================================================================== *)
(** * The tree of the method                                              *)
(* ===================================================================== *)

(** X16. getMapOfValidSequenceTracks_forStudio shows nothing that is not
    in the store. When in the track map stored for the object every key
    that is JSON text of a truthy value is an array of strings and
    integers, a track id found in the tree that the method returns is the
    id of an entry of that track map, the key of that entry decodes to a
    path with the keys at which the id was found, and that path resolves
    to a sequencable prop of the config. *)
Theorem studio_map_sound {Action : Type} (self : SheetObjectTemplate Action)
  (store : Store) (raw : TrackIdByPropPath) (tree : TrackIdTree)
  (q : PathToProp) (id : SequenceTrackId) :
  (sheetState ← pointerToSheetState store (project self)
                   (address_sheetId (address self));
   sequence_tracksByObject sheetState !! objectKey (address self))
  = Some raw ->
  typedKeys raw = true ->
  result (getMapOfValidSequenceTracks_forStudio self store) = Some tree ->
  reach tree q = Some (TId id) ->
  exists key path,
    (key, id) ∈ raw /\
    decode key = Some path /\
    toKey <$> q = toKey <$> path /\
    resolvesToSequencable (_config self) path = true.
Proof.
  intros Hraw Htyped Htree H. unfold result, run in Htree.
  rewrite getMapOfValidSequenceTracks_forStudio_body,
    getArrayOfValidSequenceTracks_body, Hraw in Htree.
  rewrite arrayOfValidSequenceTracks_spec in Htree by exact Htyped.
  cbn [fst mbind option_bind] in Htree.
  destruct (reach_setTracks_TId _ false [] tree q id Htree H)
    as [(track & Hin & Hid & Hq)|Hold];
    [|now apply reach_empty_TId in Hold].
  rewrite sort_Permutation in Hin.
  apply list_elem_of_omap in Hin as ([key id'] & Hentry & Hsurv).
  pose proof (surviving_pathToProp _ _ _ Hsurv) as [Hdecode Hid'].
  cbn [fst snd] in Hdecode, Hid'.
  exists key, (pathToProp track).
  split; [now rewrite <- Hid, Hid'|].
  split; [exact Hdecode|].
  split; [exact Hq|]. now apply (surviving_resolves _ (key, id')).
Qed.

Lemma studio_map_sound_witness :
  exists key path,
    (key, "trk2") ∈ Sample.tracks /\
    decode key = Some path /\
    toKey <$> Sample.path_x = toKey <$> path /\
    resolvesToSequencable (_config SampleInstance.used) path = true.
Proof.
  eapply (studio_map_sound SampleInstance.used SampleInstance.store
            Sample.tracks _ Sample.path_x "trk2");
    [vm_compute; reflexivity | vm_compute; reflexivity
     | vm_compute; reflexivity | reflexivity].
Defined.

(** X17. getMapOfValidSequenceTracks_forStudio shows every track of
    getArrayOfValidSequenceTracks, for a config that is a compound, when
    no two keys of valid entries decode to the same path and no key of a
    returned path is __proto__, constructor or prototype: in the tree
    that the method returns the id of each returned track is at the path
    of the track. The tree logs the warnings of the array, no other. *)
Theorem studio_map_complete {Action : Type} (self : SheetObjectTemplate Action)
  (store : Store) (props : list (string * PropTypeConfig))
  (sanitize : JSON -> JSValue) (raw : TrackIdByPropPath) (arr : list Track)
  (track : Track) (tree : TrackIdTree) :
  _config self = Compound props sanitize ->
  (sheetState ← pointerToSheetState store (project self)
                   (address_sheetId (address self));
   sequence_tracksByObject sheetState !! objectKey (address self))
  = Some raw ->
  NoDup (validPaths (_config self) raw) ->
  result (getArrayOfValidSequenceTracks self store) = Some arr ->
  Forall (fun t => assignable (pathToProp t) = true) arr ->
  track ∈ arr ->
  result (getMapOfValidSequenceTracks_forStudio self store) = Some tree ->
  reach tree (pathToProp track) = Some (TId (trackId track)) /\
  warnings (getMapOfValidSequenceTracks_forStudio self store)
  = warnings (getArrayOfValidSequenceTracks self store).
Proof.
  intros Hconfig Hraw Hnd Hreturns Hok Hin Htree.
  unfold result, warnings, run in *.
  rewrite getMapOfValidSequenceTracks_forStudio_body in Htree |- *.
  rewrite Hreturns in Htree. cbn [fst snd mbind option_bind] in Htree |- *.
  split; [|reflexivity].
  rewrite getArrayOfValidSequenceTracks_body, Hraw, Hconfig in Hreturns.
  rewrite Hconfig in Hnd.
  now apply (map_of_valid_tracks props sanitize raw arr).
Qed.

Lemma studio_map_complete_witness :
  reach (TObj false
           [("transform",
             TObj false [("type", TId "trk1");
                         ("position", TObj false [("x", TId "trk2")])])])
        Sample.path_x
  = Some (TId "trk2") /\
  warnings (getMapOfValidSequenceTracks_forStudio SampleInstance.used
              SampleInstance.store)
  = warnings (getArrayOfValidSequenceTracks SampleInstance.used
                SampleInstance.store).
Proof.
  eapply (studio_map_complete SampleInstance.used SampleInstance.store
            _ Sample.noSanitize Sample.tracks
            [{| pathToProp := Sample.path_type; trackId := "trk1" |};
             {| pathToProp := Sample.path_x; trackId := "trk2" |}]
            {| pathToProp := Sample.path_x; trackId := "trk2" |}).
  - reflexivity.
  - vm_compute. reflexivity.
  - apply (bool_decide_unpack _). vm_compute. reflexivity.
  - vm_compute. reflexivity.
  - repeat constructor.
  - apply (bool_decide_unpack _). vm_compute. reflexivity.
  - vm_compute. reflexivity.
Defined.

(* ===================================================================== *)
(** * A store without the state of the object                             *)
(* ===================================================================== *)

(** X18. The methods that read the store take a missing state for no
    state: when the store has no project of that name, or the project no
    sheet of that id, or the sheet nothing under the object key,
    getArrayOfValidSequenceTracks is the empty array and
    getMapOfValidSequenceTracks_forStudio the empty tree, and nothing is
    logged; and for an object key that names no member of
    Object.prototype, getStaticValues is what the hook of the config
    returns for an empty object. *)
Theorem missing_state_read_as_empty {Action : Type}
  (sheetTemplate0 : SheetTemplate) (key : string) (config : PropTypeConfig)
  (actions : gmap string Action) (self : SheetObjectTemplate Action)
  (store : Store) :
  rtc step (constructor sheetTemplate0 key config actions) self ->
  (store !! sheetTemplate_project sheetTemplate0 = None \/
   exists historic,
     store !! sheetTemplate_project sheetTemplate0 = Some historic /\
     (historic !! sheetId (sheetTemplate_address sheetTemplate0) = None \/
      exists sheetState,
        historic !! sheetId (sheetTemplate_address sheetTemplate0)
        = Some sheetState /\
        staticOverrides_byObject sheetState !! key = None /\
        sequence_tracksByObject sheetState !! key = None)) ->
  (inherited key = false ->
   getStaticValues self store
   = Some (staticValues (_config self) (Some (JObj [])))) /\
  run (getArrayOfValidSequenceTracks self store) = (Some [], []) /\
  run (getMapOfValidSequenceTracks_forStudio self store)
  = (Some emptyMap, []).
Proof.
  intros Hbuilt Hmissing.
  assert (Hself : built_for sheetTemplate0 key self).
  { apply (rtc_built_for _ _ _ _ Hbuilt). now repeat split. }
  destruct Hself as (Hsheet & Haddress & Hproject).
  assert (Hstatic :
    (sheetState ← pointerToSheetState store
                     (sheetTemplate_project (sheetTemplate self))
                     (address_sheetId (address self));
     staticOverrides_byObject sheetState !! objectKey (address self)) = None).
  { rewrite Hsheet, Haddress. unfold pointerToSheetState.
    cbn [address_sheetId objectKey].
    destruct Hmissing
      as [H1 | (historic & H1 & [H2 | (state & H2 & H3 & _)])];
      rewrite H1; cbn [mbind option_bind]; [reflexivity | |];
      rewrite H2; cbn [mbind option_bind]; [reflexivity|].
    exact H3. }
  assert (Htracks :
    (sheetState ← pointerToSheetState store (project self)
                     (address_sheetId (address self));
     sequence_tracksByObject sheetState !! objectKey (address self)) = None).
  { rewrite Hproject, Haddress. unfold pointerToSheetState.
    cbn [address_sheetId objectKey].
    destruct Hmissing
      as [H1 | (historic & H1 & [H2 | (state & H2 & _ & H3)])];
      rewrite H1; cbn [mbind option_bind]; [reflexivity | |];
      rewrite H2; cbn [mbind option_bind]; [reflexivity|].
    exact H3. }
  split; [|split].
  - intros Hown. unfold getStaticValues. rewrite Hstatic.
    replace (inherited (objectKey (address self))) with false
      by (rewrite Haddress; cbn [objectKey]; congruence).
    now rewrite andb_false_r.
  - rewrite getArrayOfValidSequenceTracks_body, Htracks. reflexivity.
  - unfold run. rewrite getMapOfValidSequenceTracks_forStudio_body,
      getArrayOfValidSequenceTracks_body, Htracks. reflexivity.
Qed.

Lemma missing_state_read_as_empty_witness :
  (inherited "box" = false ->
   getStaticValues SampleInstance.fresh ∅
   = Some (staticValues (_config SampleInstance.fresh) (Some (JObj [])))) /\
  run (getArrayOfValidSequenceTracks SampleInstance.fresh ∅) = (Some [], []) /\
  run (getMapOfValidSequenceTracks_forStudio SampleInstance.fresh ∅)
  = (Some emptyMap, []).
Proof.
  apply (missing_state_read_as_empty SampleInstance.sheet "box" Sample.schema
           ∅ SampleInstance.fresh ∅).
  - apply rtc_refl.
  - left. reflexivity.
Defined.
